(** * The upload driver of git-lfs: [commands/uploader.go]

    A shallow embedding of [uploadContext], [prepareUpload], [checkMissing]
    and [upload], and the properties of the push pipeline that follow from
    the code: session-scoped dedup, classification totals, reconciliation
    with the remote, skip accounting, dry-run, fatal materialization
    failures and the final error drain.

    Conventions of the embedding.
    - [int64] values are [Z]; every [+=] on an [int64] local is written
      with its two's-complement wrap-around ([Int64.add]).
    - Go [int] counters ([numObjects], [len]) are [Z] without wrap-around:
      they never exceed the length of a slice, which fits an [int].
    - [lfs.StringSet] is a [gset string].
    - Code of the [lfs] package and the printing helpers of [commands] are
      collaborators: every call to one of them is recorded as an [event],
      and what a collaborator answers is a field of the class [Env].
    - Functions that run against the [*uploadContext] live in the monad
      [Proc]: they read and update the context, emit events and may end
      the process.
    - The [git.Logger.Printf] lines are diagnostics only and are left out.

    The file has the definitions first (arithmetic and formatting, the
    data of [lfs], the monad, [uploader.go], the two tasks of
    [checkMissing] step by step, the vocabulary of the statements and a
    few scenarios), then the lemmas about the loops, and last the claims
    C1 to C10. *)

From stdpp Require Import base gmap sets list strings relations sorting.
From Stdlib Require Import ZArith Lia Ascii.

Local Open Scope Z_scope.

(** ** 64-bit signed arithmetic *)

Module Int64.

Definition min_int : Z := - 2 ^ 63.
Definition max_int : Z := 2 ^ 63 - 1.

Definition in_range (z : Z) : Prop := min_int ≤ z ≤ max_int.

(** Two's-complement reduction of a mathematical integer. *)
Definition wrap (z : Z) : Z := (z + 2 ^ 63) `mod` 2 ^ 64 - 2 ^ 63.

(** Go's [a + b] on [int64]. *)
Definition add (a b : Z) : Z := wrap (a + b).

End Int64.

(** ** [fmt]-style formatting, restricted to the verb [%s] *)

Module Fmt.

(** [Sprintf format args] for formats whose only verb is [%s]: each [%s]
    is replaced by the next argument, every other character is copied. *)
Fixpoint Sprintf (format : string) (args : list string) : string :=
  match format with
  | EmptyString => EmptyString
  | String "%"%char (String "s"%char rest) =>
      match args with
      | a :: args' => a +:+ Sprintf rest args'
      | [] => "%!s(MISSING)" +:+ Sprintf rest []
      end
  | String ch rest => String ch (Sprintf rest args)
  end.

End Fmt.

(** ** Data of the [lfs] package seen by the uploader *)

(** [lfs.WrappedPointer], with the fields the uploader reads. *)
Record WrappedPointer := mkPointer {
  Oid : string;
  Name : string;
  Size : Z;
}.

(** Modelled from the spec: the [error] values of the [lfs] package, which
    is not part of the sources at hand. An error has its own message
    ([err.Error()]), optionally an inner cause ([lfs.GetInnerError]), a
    fatal flag ([lfs.IsFatalError]) and, when it is a clean-pointer error
    ([lfs.IsCleanPointerError]), the "pointer" context whose [Oid] is the
    id that regenerating the content produced. *)
Record lfs_error := mkError {
  err_message : string;
  err_inner : option string;
  err_fatal : bool;
  err_clean_pointer : option string;
}.

Definition IsFatalError (e : lfs_error) : bool := err_fatal e.

Definition GetInnerError (e : lfs_error) : option string := err_inner e.

Definition IsCleanPointerError (e : lfs_error) : bool :=
  match err_clean_pointer e with Some _ => true | None => false end.

(** The [*lfs.TransferQueue] made by [lfs.NewUploadQueue], as the calls
    made on it: the arguments of the constructor, the sizes passed to
    [Skip] and the units passed to [Add], oldest first. *)
Record TransferQueue (U : Type) := mkQueue {
  q_numObjects : Z;
  q_totalSize : Z;
  q_dryRun : bool;
  q_skipped : list Z;
  q_added : list U;
}.
Arguments mkQueue {U}.
Arguments q_numObjects {U}.
Arguments q_totalSize {U}.
Arguments q_dryRun {U}.
Arguments q_skipped {U}.
Arguments q_added {U}.

(** The [*lfs.TransferQueue] made by [lfs.NewDownloadCheckQueue], as the
    pointers whose checkables were added to it, oldest first. *)
Definition CheckQueue : Type := list WrappedPointer.

(** ** Collaborators *)

(** What the surroundings of the uploader answer.
    - [Uploadable]: the type [*lfs.Uploadable];
    - [in_local_cache oid size]: the answer of [lfs.ObjectExistsOfSize];
    - [confirmations checked]: the oids that a download-check queue sends
      on its [Watch] channel, in order, when the checkables of the
      pointers [checked] were added to it;
    - [materialized oid name]: the answer of [lfs.NewUploadable], a unit
      or an error;
    - [transfer_errors q]: the answer of [q.Errors()] once [q.Wait()] has
      returned;
    - [Debugging]: the package variable [commands.Debugging]. *)
Class Env := {
  Uploadable : Type;
  in_local_cache : string → Z → bool;
  confirmations : CheckQueue → list string;
  materialized : string → string → Uploadable + lfs_error;
  transfer_errors : TransferQueue Uploadable → list lfs_error;
  Debugging : bool;
}.

(** ** Events: calls to collaborators and output to the operator *)

Inductive event `{Env} : Type :=
  | EvObjectExistsOfSize (oid : string) (size : Z)
  | EvNewDownloadCheckQueue (count : Z) (size : Z) (strict : bool)
  | EvCheckAdd (p : WrappedPointer)
  | EvCheckWatch
  | EvCheckWait
  | EvNewUploadQueue (count : Z) (size : Z) (dryRun : bool)
  | EvSkip (size : Z)
  | EvNewUploadable (oid name : string)
  | EvAdd (u : Uploadable)
  | EvQueueWait
  | EvPrint (line : string)
  | EvError (line : string)
  | EvLoggedError (e : lfs_error) (line : string)
  | EvExit (line : string)
  | EvExitWithError (e : lfs_error)
  | EvOsExit (code : Z).

(** ** The upload context *)

Record uploadContext := mkContext {
  DryRun : bool;
  uploadedOids : gset string;
}.

Definition newUploadContext (dryRun : bool) : uploadContext :=
  {| DryRun := dryRun; uploadedOids := ∅ |}.

(** ** The monad of the uploader *)

(** How a computation ends: it returns to its caller, or the process is
    over. [Aborted] is the end reached through [Exit] and [ExitWithError],
    whose status is set by those helpers; [ExitStatus n] is [os.Exit(n)]. *)
Inductive halt := Aborted | ExitStatus (code : Z).

Inductive outcome (A : Type) :=
  | Returned (a : A)
  | Halted (h : halt).
Arguments Returned {A}.
Arguments Halted {A}.

Record run `{Env} (A : Type) := Run {
  result : outcome A;
  context : uploadContext;
  events : list event;
}.
Arguments Run {_ A}.
Arguments result {_ A}.
Arguments context {_ A}.
Arguments events {_ A}.

Definition Proc `{Env} (A : Type) : Type := uploadContext → run A.

Definition ret `{Env} {A} (a : A) : Proc A :=
  fun c => Run (Returned a) c [].

Definition bind `{Env} {A B} (m : Proc A) (k : A → Proc B) : Proc B :=
  fun c =>
    let r := m c in
    match result r with
    | Returned a =>
        let r' := k a (context r) in
        Run (result r') (context r') (events r ++ events r')
    | Halted h => Run (Halted h) (context r) (events r)
    end.

Notation "'let!' x ':=' m 'in' k" := (bind m (fun x => k))
  (at level 10, x name, m at level 100, k at level 200).
Notation "'let!' ' pat ':=' m 'in' k" := (bind m (fun 'pat => k))
  (at level 10, pat pattern, m at level 100, k at level 200).
Notation "m '>>' k" := (bind m (fun _ => k))
  (at level 100, k at level 200, right associativity).

Definition emit `{Env} (e : event) : Proc unit :=
  fun c => Run (Returned tt) c [e].

Definition stop `{Env} {A} (h : halt) : Proc A :=
  fun c => Run (Halted h) c [].

(** Reading the field [c.DryRun]. *)
Definition getDryRun `{Env} : Proc bool :=
  fun c => Run (Returned (DryRun c)) c [].

(** [for _, x := range xs { body }], where the body rewrites the locals
    [s] that the loop carries; [continue] is returning them. *)
Fixpoint range `{Env} {A S} (xs : list A) (body : S → A → Proc S) (s : S)
  : Proc S :=
  match xs with
  | [] => ret s
  | x :: rest => let! s' := body s x in range rest body s'
  end.

(** A [range] loop without locals. *)
Definition range_ `{Env} {A} (xs : list A) (body : A → Proc unit) : Proc unit :=
  range xs (fun _ x => body x) tt.

(** ** Calls into package [lfs] *)

Definition ObjectExistsOfSize `{Env} (oid : string) (size : Z) : Proc bool :=
  emit (EvObjectExistsOfSize oid size) >> ret (in_local_cache oid size).

Definition NewDownloadCheckQueue `{Env} (count size : Z) (strict : bool)
  : Proc CheckQueue :=
  emit (EvNewDownloadCheckQueue count size strict) >> ret [].

(** [checkQueue.Add(lfs.NewDownloadCheckable(p))]. *)
Definition CheckQueue_Add `{Env} (checkQueue : CheckQueue) (p : WrappedPointer)
  : Proc CheckQueue :=
  emit (EvCheckAdd p) >> ret (checkQueue ++ [p]).

(** [checkQueue.Watch()]: the channel, as the oids that come out of it. *)
Definition CheckQueue_Watch `{Env} (checkQueue : CheckQueue) : Proc (list string) :=
  emit EvCheckWatch >> ret (confirmations checkQueue).

Definition CheckQueue_Wait `{Env} (checkQueue : CheckQueue) : Proc unit :=
  emit EvCheckWait.

Definition NewUploadQueue `{Env} (count size : Z) (dryRun : bool)
  : Proc (TransferQueue Uploadable) :=
  emit (EvNewUploadQueue count size dryRun) >>
  ret {| q_numObjects := count; q_totalSize := size; q_dryRun := dryRun;
         q_skipped := []; q_added := [] |}.

Definition Queue_Skip `{Env} (q : TransferQueue Uploadable) (size : Z)
  : Proc (TransferQueue Uploadable) :=
  emit (EvSkip size) >>
  ret {| q_numObjects := q_numObjects q; q_totalSize := q_totalSize q;
         q_dryRun := q_dryRun q; q_skipped := q_skipped q ++ [size];
         q_added := q_added q |}.

Definition Queue_Add `{Env} (q : TransferQueue Uploadable) (u : Uploadable)
  : Proc (TransferQueue Uploadable) :=
  emit (EvAdd u) >>
  ret {| q_numObjects := q_numObjects q; q_totalSize := q_totalSize q;
         q_dryRun := q_dryRun q; q_skipped := q_skipped q;
         q_added := q_added q ++ [u] |}.

Definition Queue_Wait `{Env} (q : TransferQueue Uploadable) : Proc unit :=
  emit EvQueueWait.

Definition Queue_Errors `{Env} (q : TransferQueue Uploadable)
  : Proc (list lfs_error) :=
  ret (transfer_errors q).

Definition NewUploadable `{Env} (oid name : string)
  : Proc (Uploadable + lfs_error) :=
  emit (EvNewUploadable oid name) >> ret (materialized oid name).

(** ** The helpers of package [commands] the uploader prints with *)

(** Modelled from the spec: [Print], [Error], [LoggedError], [Exit] and
    [ExitWithError] are defined elsewhere in package [commands]. The first
    three report a line and return; [Exit] reports the formatted line and
    ends the process, [ExitWithError] ends it with the error as it is. *)
Definition Print `{Env} (format : string) (args : list string) : Proc unit :=
  emit (EvPrint (Fmt.Sprintf format args)).

Definition Error `{Env} (line : string) : Proc unit :=
  emit (EvError line).

Definition LoggedError `{Env} (e : lfs_error) (line : string) : Proc unit :=
  emit (EvLoggedError e line).

Definition Exit `{Env} {A} (format : string) (args : list string) : Proc A :=
  emit (EvExit (Fmt.Sprintf format args)) >> stop Aborted.

Definition ExitWithError `{Env} {A} (e : lfs_error) : Proc A :=
  emit (EvExitWithError e) >> stop Aborted.

(** [os.Exit(code)]. *)
Definition os_Exit `{Env} {A} (code : Z) : Proc A :=
  emit (EvOsExit code) >> stop (ExitStatus code).

(** ** [uploader.go] *)

Definition uploadMissingErr : string :=
  "%s does not exist in .git/lfs/objects. Tried %s, which matches %s.".

Definition SetUploaded `{Env} (oid : string) : Proc unit :=
  fun c =>
    Run (Returned tt)
        {| DryRun := DryRun c; uploadedOids := {[oid]} ∪ uploadedOids c |}
        [].

Definition HasUploaded `{Env} (oid : string) : Proc bool :=
  fun c => Run (Returned (bool_decide (oid ∈ uploadedOids c))) c [].

(** The locals of [prepareUpload] that its first loop carries. *)
Record classification := mkClassification {
  uploadables : list WrappedPointer;
  missingLocalObjects : list WrappedPointer;
  numObjects : Z;
  totalSize : Z;
  missingSize : Z;
}.

(** Their values at line 42. *)
Definition classification_start : classification :=
  {| uploadables := []; missingLocalObjects := [];
     numObjects := 0; totalSize := 0; missingSize := 0 |}.

(** The body of the loop at lines 48-68. *)
Definition classify_step `{Env} (st : classification) (p : WrappedPointer)
  : Proc classification :=
  let! seen := HasUploaded (Oid p) in
  if (seen : bool) then ret st
  else
    let n := numObjects st + 1 in
    let total := Int64.add (totalSize st) (Size p) in
    let! present := ObjectExistsOfSize (Oid p) (Size p) in
    if (present : bool) then
      ret {| uploadables := uploadables st ++ [p];
             missingLocalObjects := missingLocalObjects st;
             numObjects := n; totalSize := total;
             missingSize := missingSize st |}
    else
      ret {| uploadables := uploadables st;
             missingLocalObjects := missingLocalObjects st ++ [p];
             numObjects := n; totalSize := total;
             missingSize := Int64.add (missingSize st) (Size p) |}.

(** Lines 37-68 of [prepareUpload]. *)
Definition classify `{Env} (unfiltered : list WrappedPointer)
  : Proc classification :=
  range unfiltered classify_step classification_start.

(** [checkMissing], lines 90-115. The goroutine started at line 105 is the
    only code that runs against the context while the caller is blocked
    in [checkQueue.Wait()] and [<-done]; its whole effect, one
    [SetUploaded] per oid received from the [Watch] channel, is placed at
    the receive from [done]. Module [Barrier] below treats the two tasks
    and the channel step by step. *)
Definition checkMissing `{Env} (missing : list WrappedPointer) (missingSize : Z)
  : Proc unit :=
  let numMissing := Z.of_nat (length missing) in
  if numMissing =? 0 then ret tt
  else
    let! checkQueue := NewDownloadCheckQueue numMissing missingSize true in
    let! checkQueue := range missing CheckQueue_Add checkQueue in
    let! transferc := CheckQueue_Watch checkQueue in
    CheckQueue_Wait checkQueue >>
    range_ transferc SetUploaded.

(** The body of the loop at lines 76-82; it carries the queue and
    [uploadables]. *)
Definition skip_step `{Env}
    (st : TransferQueue Uploadable * list WrappedPointer) (p : WrappedPointer)
  : Proc (TransferQueue Uploadable * list WrappedPointer) :=
  let '(uploadQueue, ups) := st in
  let! confirmed := HasUploaded (Oid p) in
  if (confirmed : bool) then
    let! uploadQueue := Queue_Skip uploadQueue (Size p) in
    ret (uploadQueue, ups)
  else ret (uploadQueue, ups ++ [p]).

Definition prepareUpload `{Env} (unfiltered : list WrappedPointer)
  : Proc (TransferQueue Uploadable * list WrappedPointer) :=
  let! st := classify unfiltered in
  checkMissing (missingLocalObjects st) (missingSize st) >>
  let! dryRun := getDryRun in
  let! uploadQueue := NewUploadQueue (numObjects st) (totalSize st) dryRun in
  range (missingLocalObjects st) skip_step (uploadQueue, uploadables st).

(** The body of the dry-run loop of [upload], lines 119-126. *)
Definition dry_step `{Env} (p : WrappedPointer) : Proc unit :=
  let! seen := HasUploaded (Oid p) in
  if (seen : bool) then ret tt
  else
    Print "push %s => %s" [Oid p; Name p] >>
    SetUploaded (Oid p).

(** The body of the loop at lines 133-145. An error is a clean-pointer
    error exactly when it has the pointer context. *)
Definition enqueue_step `{Env} (q : TransferQueue Uploadable) (p : WrappedPointer)
  : Proc (TransferQueue Uploadable) :=
  let! made := NewUploadable (Oid p) (Name p) in
  match made with
  | inr err =>
      match err_clean_pointer err with
      | Some actual => Exit uploadMissingErr [Oid p; Name p; actual]
      | None => ExitWithError err
      end
  | inl u =>
      let! q := Queue_Add q u in
      SetUploaded (Oid p) >>
      ret q
  end.

(** The body of the loop at lines 150-159. *)
Definition report_step `{Env} (err : lfs_error) : Proc unit :=
  if Debugging || IsFatalError err then
    LoggedError err (err_message err)
  else
    match GetInnerError err with
    | Some inner => Error inner
    | None => ret tt
    end >>
    Error (err_message err).

Definition upload `{Env} (unfiltered : list WrappedPointer) : Proc unit :=
  let! dryRun := getDryRun in
  if (dryRun : bool) then
    range_ unfiltered dry_step
  else
    let! '(q, pointers) := prepareUpload unfiltered in
    let! q := range pointers enqueue_step q in
    Queue_Wait q >>
    let! errs := Queue_Errors q in
    range_ errs report_step >>
    let! errs := Queue_Errors q in
    if 0 <? Z.of_nat (length errs) then os_Exit 2 else ret tt.

(** ** The two tasks of [checkMissing], step by step

    Lines 103-114 run two tasks against one context: the caller, blocked
    first in [checkQueue.Wait()] and then in [<-done], and the goroutine
    that ranges over the [Watch] channel. The check queue is the third
    party: it sends the confirmed oids on the channel and closes it. *)

Module Barrier.

(** Where the caller of [checkMissing] is. *)
Inductive main_pc :=
  | InWait          (* line 113, inside checkQueue.Wait() *)
  | AtReceiveDone   (* line 114, blocked in <-done *)
  | HasReturned.    (* back in prepareUpload, line 75 *)

(** Where the goroutine of line 105 is. *)
Inductive collector_pc :=
  | AtRange                      (* line 106, receiving from transferc *)
  | AtSetUploaded (oid : string) (* line 107, holding a received oid *)
  | AtSendDone                   (* line 109, blocked in done <- 1 *)
  | Finished.

(** [pending]: the oids the check queue has still to send on the channel;
    [transferc]: the oids sent and not yet received, oldest first;
    [closed]: whether [transferc] has been closed;
    [oids]: [c.uploadedOids]. *)
Record state := mkState {
  main : main_pc;
  collector : collector_pc;
  pending : list string;
  transferc : list string;
  closed : bool;
  oids : gset string;
}.

(** The state once line 105 has started the goroutine: nothing is sent
    yet, and [stream] is what the queue is going to send. *)
Definition start (oids0 : gset string) (stream : list string) : state :=
  {| main := InWait; collector := AtRange; pending := stream;
     transferc := []; closed := false; oids := oids0 |}.

(** The state in which [checkMissing] has returned: every oid of the
    stream is marked and both tasks are done. *)
Definition finished (oids0 : gset string) (stream : list string) : state :=
  {| main := HasReturned; collector := Finished; pending := [];
     transferc := []; closed := true;
     oids := list_to_set stream ∪ oids0 |}.

(** Modelled from the spec: the download-check queue, which is not part
    of the sources at hand. It sends each confirmed oid on the channel it
    handed out and closes the channel when all have been sent. The
    channel holds any number of sent oids; a channel of bounded capacity,
    or one without buffer, has fewer runs, not more. *)
Inductive queue_step : state → state → Prop :=
  | queue_sends s oid rest :
      pending s = oid :: rest → closed s = false →
      queue_step s {| main := main s; collector := collector s;
                      pending := rest; transferc := transferc s ++ [oid];
                      closed := false; oids := oids s |}
  | queue_closes s :
      pending s = [] → closed s = false →
      queue_step s {| main := main s; collector := collector s;
                      pending := []; transferc := transferc s;
                      closed := true; oids := oids s |}.

(** Modelled from the spec: [checkQueue.Wait()] returns only when every
    check is done. The queue also promises that the channel is closed by
    then; that promise is not relied on here. *)
Definition checks_done (s : state) : Prop := pending s = [].

(** The steps of the caller and of the goroutine, lines 105-114. A
    [range] over a channel receives until the channel is closed and
    empty; the channel [done] has no buffer, so its send at line 109 and
    its receive at line 114 are one step. *)
Inductive task_step : state → state → Prop :=
  | wait_returns s :
      main s = InWait → checks_done s →
      task_step s {| main := AtReceiveDone; collector := collector s;
                     pending := pending s; transferc := transferc s;
                     closed := closed s; oids := oids s |}
  | collector_receives s oid rest :
      collector s = AtRange → transferc s = oid :: rest →
      task_step s {| main := main s; collector := AtSetUploaded oid;
                     pending := pending s; transferc := rest;
                     closed := closed s; oids := oids s |}
  | collector_sets s oid :
      collector s = AtSetUploaded oid →
      task_step s {| main := main s; collector := AtRange;
                     pending := pending s; transferc := transferc s;
                     closed := closed s; oids := {[oid]} ∪ oids s |}
  | collector_leaves_range s :
      collector s = AtRange → transferc s = [] → closed s = true →
      task_step s {| main := main s; collector := AtSendDone;
                     pending := pending s; transferc := []; closed := true;
                     oids := oids s |}
  | done_is_passed s :
      collector s = AtSendDone → main s = AtReceiveDone →
      task_step s {| main := HasReturned; collector := Finished;
                     pending := pending s; transferc := transferc s;
                     closed := closed s; oids := oids s |}.

(** One step of the whole: the queue or one of the two tasks moves. *)
Definition step (s s' : state) : Prop := queue_step s s' ∨ task_step s s'.

Definition reachable (oids0 : gset string) (stream : list string) (s : state)
  : Prop :=
  rtc step (start oids0 stream) s.

(** The oid the collector holds between receiving it and marking it. *)
Definition in_hand (pc : collector_pc) : list string :=
  match pc with AtSetUploaded oid => [oid] | _ => [] end.

(** What holds of every state of every run: the stream splits into the
    oids already marked, the one in hand, those in the channel and those
    still to be sent; a closed channel receives nothing more; the
    collector leaves its loop only on a closed, empty channel; the caller
    passes [Wait] only when all is sent and passes [<-done] only with the
    collector. *)
Definition invariant (oids0 : gset string) (stream : list string) (s : state)
  : Prop :=
  (∃ marked,
     stream = marked ++ in_hand (collector s) ++ transferc s ++ pending s ∧
     oids s = list_to_set marked ∪ oids0) ∧
  (closed s = true → pending s = []) ∧
  (collector s = AtSendDone ∨ collector s = Finished →
     closed s = true ∧ transferc s = []) ∧
  (main s ≠ InWait → pending s = []) ∧
  (main s = HasReturned ↔ collector s = Finished).

(** The work that is left in a state; every step uses some of it up. *)
Definition weight (s : state) : nat :=
  (3 * length (pending s) + 2 * length (transferc s)
   + (if closed s then 0 else 1)
   + match main s with InWait => 2 | AtReceiveDone => 1 | HasReturned => 0 end
   + match collector s with
     | AtRange => 2
     | AtSetUploaded _ => 3
     | AtSendDone => 1
     | Finished => 0
     end)%nat.

End Barrier.

(** ** Vocabulary of the statements *)

(** The candidates that the loop of lines 48-68 does not skip. *)
Definition counted (c : uploadContext) (l : list WrappedPointer)
  : list WrappedPointer :=
  filter (λ p, Oid p ∉ uploadedOids c) l.

(** Pointers whose object is, or is not, in the local object cache. *)
Definition present `{Env} (l : list WrappedPointer) : list WrappedPointer :=
  filter (λ p, in_local_cache (Oid p) (Size p) = true) l.

Definition absent `{Env} (l : list WrappedPointer) : list WrappedPointer :=
  filter (λ p, in_local_cache (Oid p) (Size p) ≠ true) l.

(** The mathematical sum of the sizes of a list of pointers. *)
Definition sum_sizes (l : list WrappedPointer) : Z :=
  foldr (λ p acc, Size p + acc) 0 l.

(** The oids that reach the collector of [checkMissing]: none when there
    is nothing to check (no queue is made), else what the queue sends. *)
Definition confirmed `{Env} (missing : list WrappedPointer) : list string :=
  match missing with
  | [] => []
  | _ :: _ => confirmations missing
  end.

(** The context once [checkMissing] has marked what the remote confirmed. *)
Definition reconciled `{Env} (c : uploadContext) (missing : list WrappedPointer)
  : uploadContext :=
  {| DryRun := DryRun c;
     uploadedOids := list_to_set (confirmed missing) ∪ uploadedOids c |}.

(** The calls that [checkMissing] makes on the download-check queue. *)
Definition check_events `{Env} (missing : list WrappedPointer) (missingSize : Z)
  : list event :=
  match missing with
  | [] => []
  | _ :: _ =>
      EvNewDownloadCheckQueue (Z.of_nat (length missing)) missingSize true
      :: (EvCheckAdd <$> missing) ++ [EvCheckWatch; EvCheckWait]
  end.

(** The line that dry-run prints for a pointer. *)
Definition push_line (p : WrappedPointer) : string :=
  "push " +:+ Oid p +:+ " => " +:+ Name p.

(** The pointers of [l] that come with an oid that is neither in [seen]
    nor carried by an earlier pointer of [l]. *)
Fixpoint announced (seen : gset string) (l : list WrappedPointer)
  : list WrappedPointer :=
  match l with
  | [] => []
  | p :: rest =>
      if decide (Oid p ∈ seen) then announced seen rest
      else p :: announced ({[Oid p]} ∪ seen) rest
  end.

(** The unit that [lfs.NewUploadable] makes for a pointer, if any. *)
Definition unit_of `{Env} (p : WrappedPointer) : option Uploadable :=
  match materialized (Oid p) (Name p) with
  | inl u => Some u
  | inr _ => None
  end.

Definition materializes `{Env} (p : WrappedPointer) : Prop :=
  ∃ u, materialized (Oid p) (Name p) = inl u.

(** The event by which [upload] ends the process when a unit cannot be
    made: the message of [uploadMissingErr] for a clean-pointer error,
    the error as it is otherwise. *)
Definition abort_event `{Env} (p : WrappedPointer) (err : lfs_error) : event :=
  match err_clean_pointer err with
  | Some actual =>
      EvExit (Oid p +:+ " does not exist in .git/lfs/objects. Tried "
              +:+ Name p +:+ ", which matches " +:+ actual +:+ ".")
  | None => EvExitWithError err
  end.

(** The events of one turn of the loop of lines 133-145 that does not
    end the process. *)
Definition enqueued `{Env} (p : WrappedPointer) : list event :=
  match materialized (Oid p) (Name p) with
  | inl u => [EvNewUploadable (Oid p) (Name p); EvAdd u]
  | inr _ => [EvNewUploadable (Oid p) (Name p)]
  end.

(** The events by which one error of [q.Errors()] is reported. *)
Definition reported `{Env} (err : lfs_error) : list event :=
  if Debugging || err_fatal err then [EvLoggedError err (err_message err)]
  else
    match err_inner err with
    | Some inner => [EvError inner; EvError (err_message err)]
    | None => [EvError (err_message err)]
    end.

(** The oids of the units that a run passed to [q.Add], read off the
    [lfs.NewUploadable] calls that were followed by an [Add]. *)
Fixpoint added_oids `{Env} (evs : list event) : list string :=
  match evs with
  | EvNewUploadable oid _ :: ((EvAdd _ :: _) as rest) => oid :: added_oids rest
  | _ :: rest => added_oids rest
  | [] => []
  end.

(** The sizes passed to [Skip], and the arguments of the calls to
    [lfs.NewUploadQueue], in a list of events. *)
Definition skips `{Env} (evs : list event) : list Z :=
  omap (λ e, match e with EvSkip size => Some size | _ => None end) evs.

Definition queues_made `{Env} (evs : list event) : list (Z * Z * bool) :=
  omap (λ e, match e with
             | EvNewUploadQueue count size dryRun => Some (count, size, dryRun)
             | _ => None
             end) evs.

(** A computation that leaves [DryRun] alone and removes no oid. *)
Definition grows `{Env} {A} (m : Proc A) : Prop :=
  ∀ c, DryRun (context (m c)) = DryRun c
       ∧ uploadedOids c ⊆ uploadedOids (context (m c)).

(** The operations of the core on a context, for one session. *)
Inductive operation :=
  | OpSetUploaded (oid : string)
  | OpHasUploaded (oid : string)
  | OpClassify (unfiltered : list WrappedPointer)
  | OpCheckMissing (missing : list WrappedPointer) (missingSize : Z)
  | OpPrepareUpload (unfiltered : list WrappedPointer)
  | OpUpload (unfiltered : list WrappedPointer).

(** The context an operation leaves behind. *)
Definition perform `{Env} (c : uploadContext) (o : operation) : uploadContext :=
  match o with
  | OpSetUploaded oid => context (SetUploaded oid c)
  | OpHasUploaded oid => context (HasUploaded oid c)
  | OpClassify l => context (classify l c)
  | OpCheckMissing l sz => context (checkMissing l sz c)
  | OpPrepareUpload l => context (prepareUpload l c)
  | OpUpload l => context (upload l c)
  end.

Definition session `{Env} (c : uploadContext) (ops : list operation)
  : uploadContext :=
  foldl perform c ops.

(** ** Further vocabulary: reading a list of events *)

(** The arguments of the calls to [lfs.ObjectExistsOfSize]. *)
Definition local_queries `{Env} (evs : list event) : list (string * Z) :=
  omap (λ e, match e with
             | EvObjectExistsOfSize oid size => Some (oid, size)
             | _ => None
             end) evs.

(** The calls on the download-check queue, its constructor included. *)
Definition check_calls `{Env} (evs : list event) : list event :=
  omap (λ e, match e with
             | EvNewDownloadCheckQueue _ _ _ | EvCheckAdd _
             | EvCheckWatch | EvCheckWait => Some e
             | _ => None
             end) evs.

(** The arguments of the calls to [lfs.NewUploadable]. *)
Definition materialize_calls `{Env} (evs : list event) : list (string * string) :=
  omap (λ e, match e with
             | EvNewUploadable oid name => Some (oid, name)
             | _ => None
             end) evs.

(** The units passed to [q.Add]. *)
Definition adds `{Env} (evs : list event) : list Uploadable :=
  omap (λ e, match e with EvAdd u => Some u | _ => None end) evs.

(** The queue once the loop of lines 133-145 has run over [pointers]
    without ending the process. *)
Definition loaded `{Env} (q0 : TransferQueue Uploadable)
    (pointers : list WrappedPointer) : TransferQueue Uploadable :=
  {| q_numObjects := q_numObjects q0; q_totalSize := q_totalSize q0;
     q_dryRun := q_dryRun q0; q_skipped := q_skipped q0;
     q_added := q_added q0 ++ omap unit_of pointers |}.

(** The stage of [upload] at which an event can occur: printing in
    dry-run, asking the local cache, checking with the remote, making the
    transfer queue, skipping, making and adding units, waiting, reporting
    errors, ending the process. *)
Definition stage `{Env} (e : event) : nat :=
  match e with
  | EvPrint _ => 0
  | EvObjectExistsOfSize _ _ => 1
  | EvNewDownloadCheckQueue _ _ _ | EvCheckAdd _
  | EvCheckWatch | EvCheckWait => 2
  | EvNewUploadQueue _ _ _ => 3
  | EvSkip _ => 4
  | EvNewUploadable _ _ | EvAdd _ => 5
  | EvQueueWait => 6
  | EvError _ | EvLoggedError _ _ => 7
  | EvExit _ | EvExitWithError _ | EvOsExit _ => 8
  end%nat.

(** No event of a list comes before an event of an earlier stage. *)
Definition in_order `{Env} (evs : list event) : Prop :=
  StronglySorted le (stage <$> evs).

(** A list of events that is in order and starts at stage [n] or later. *)
Definition from_stage `{Env} (n : nat) (evs : list event) : Prop :=
  Forall (λ e, (n ≤ stage e)%nat) evs ∧ in_order evs.

(** The queue and the list of pointers that [prepareUpload] returns,
    line 84. *)
Definition transfer_queue `{Env} (c : uploadContext) (l : list WrappedPointer)
  : TransferQueue Uploadable :=
  match result (prepareUpload l c) with
  | Returned (q, _) => q
  | Halted _ =>
      {| q_numObjects := 0; q_totalSize := 0; q_dryRun := DryRun c;
         q_skipped := []; q_added := [] |}
  end.

Definition working_list `{Env} (c : uploadContext) (l : list WrappedPointer)
  : list WrappedPointer :=
  match result (prepareUpload l c) with
  | Returned (_, pointers) => pointers
  | Halted _ => []
  end.

(** The errors that [q.Errors()] has at line 150, when the loop of lines
    133-145 has run to its end. *)
Definition upload_errors `{Env} (c : uploadContext) (l : list WrappedPointer)
  : list lfs_error :=
  transfer_errors (loaded (transfer_queue c l) (working_list c l)).


(** ** Scenarios *)

Module Scenario.

Definition blob_a : WrappedPointer := mkPointer "A" "a.bin" 1024.
Definition blob_a_again : WrappedPointer := mkPointer "A" "copy-of-a.bin" 1024.
Definition blob_b : WrappedPointer := mkPointer "B" "b.bin" 2048.

(** Two well-formed pointers whose sizes add up to [2^63]. *)
Definition tiny_a : WrappedPointer := mkPointer "A" "a.bin" 1.
Definition huge_b : WrappedPointer := mkPointer "B" "b.bin" (2 ^ 63 - 1).

(** [A] is in the local cache and nothing else is; the remote confirms
    every oid it is asked about; every unit can be made; no transfer
    fails. *)
Definition smooth : Env :=
  {| Uploadable := string * string;
     in_local_cache := λ oid _, bool_decide (oid = "A");
     confirmations := fmap Oid;
     materialized := λ oid name, inl (oid, name);
     transfer_errors := λ _, [];
     Debugging := false |}.

Definition mismatch_error : lfs_error :=
  {| err_message := "pointer does not match";
     err_inner := None; err_fatal := false;
     err_clean_pointer := Some "C" |}.

(** As [smooth], but the remote confirms nothing and the content found
    for [B] hashes to [C]. *)
Definition mismatch : Env :=
  {| Uploadable := string * string;
     in_local_cache := λ oid _, bool_decide (oid = "A");
     confirmations := λ _, [];
     materialized := λ oid name,
       if bool_decide (oid = "B") then inr mismatch_error
       else inl (oid, name);
     transfer_errors := λ _, [];
     Debugging := false |}.

Definition timeout_error : lfs_error :=
  {| err_message := "transfer failed"; err_inner := Some "timeout";
     err_fatal := false; err_clean_pointer := None |}.

Definition fatal_error : lfs_error :=
  {| err_message := "access denied"; err_inner := None;
     err_fatal := true; err_clean_pointer := None |}.

(** As [smooth], but with [Debugging] set and one plain error, with an
    inner cause, reported by the queue. *)
Definition verbose : Env :=
  {| Uploadable := string * string;
     in_local_cache := λ oid _, bool_decide (oid = "A");
     confirmations := fmap Oid;
     materialized := λ oid name, inl (oid, name);
     transfer_errors := λ _, [timeout_error];
     Debugging := true |}.

(** As [smooth], but the queue reports two errors for every unit. *)
Definition flaky : Env :=
  {| Uploadable := string * string;
     in_local_cache := λ oid _, bool_decide (oid = "A");
     confirmations := fmap Oid;
     materialized := λ oid name, inl (oid, name);
     transfer_errors :=
       λ q, flat_map (λ _, [timeout_error; fatal_error]) (q_added q);
     Debugging := false |}.

End Scenario.

(** * Properties *)

(** ** Arithmetic on [int64] *)

Lemma wrap_in_range z : Int64.in_range z → Int64.wrap z = z.
Proof.
  unfold Int64.in_range, Int64.min_int, Int64.max_int, Int64.wrap. intros Hz.
  rewrite Z.mod_small; lia.
Qed.

Lemma add_wrap_l a b : Int64.add (Int64.wrap a) b = Int64.wrap (a + b).
Proof.
  unfold Int64.add, Int64.wrap.
  replace ((a + 2 ^ 63) `mod` 2 ^ 64 - 2 ^ 63 + b + 2 ^ 63)
    with ((a + 2 ^ 63) `mod` 2 ^ 64 + b) by lia.
  rewrite Zplus_mod_idemp_l. f_equal. f_equal. lia.
Qed.

Lemma foldl_add_wrap a sizes :
  foldl Int64.add (Int64.wrap a) sizes = Int64.wrap (a + foldr Z.add 0 sizes).
Proof.
  revert a. induction sizes as [|s sizes IH]; intros a; simpl.
  - by rewrite Z.add_0_r.
  - rewrite add_wrap_l, IH. f_equal. lia.
Qed.

Lemma sum_sizes_fmap l : foldr Z.add 0 (Size <$> l) = sum_sizes l.
Proof. induction l as [|p l IH]; simpl; [done|]. f_equal. exact IH. Qed.

Lemma sum_sizes_app l1 l2 : sum_sizes (l1 ++ l2) = sum_sizes l1 + sum_sizes l2.
Proof. induction l1 as [|p l1 IH]; simpl; [done|]. rewrite IH. lia. Qed.

Lemma sum_sizes_nonneg l : Forall (λ p, 0 ≤ Size p) l → 0 ≤ sum_sizes l.
Proof. induction 1; simpl; lia. Qed.

Lemma sum_sizes_filter_le (P : WrappedPointer → Prop) `{∀ p, Decision (P p)} l :
  Forall (λ p, 0 ≤ Size p) l → sum_sizes (filter P l) ≤ sum_sizes l.
Proof.
  induction 1 as [|p l Hp Hl IH]; simpl; [done|].
  rewrite filter_cons. destruct (decide (P p)); simpl; lia.
Qed.

(** ** Formatting *)

Lemma append_empty_r (s : string) : s +:+ "" = s.
Proof.
  induction s as [|ch s IH]; [done|].
  change (String ch (s +:+ "") = String ch s). by rewrite IH.
Qed.

Lemma Sprintf_push oid name :
  Fmt.Sprintf "push %s => %s" [oid; name] = "push " +:+ oid +:+ " => " +:+ name.
Proof. rewrite <- (append_empty_r name) at 2. reflexivity. Qed.

Lemma Sprintf_uploadMissingErr oid name actual :
  Fmt.Sprintf uploadMissingErr [oid; name; actual] =
    oid +:+ " does not exist in .git/lfs/objects. Tried " +:+ name
    +:+ ", which matches " +:+ actual +:+ ".".
Proof. reflexivity. Qed.

(** ** Laws of [Proc] *)

Section ProcLaws.
Context `{Env}.

Lemma run_eta {A} (r : run A) : Run (result r) (context r) (events r) = r.
Proof. by destruct r. Qed.

Lemma bind_returned {A B} (m : Proc A) (k : A → Proc B) c a c1 evs :
  m c = Run (Returned a) c1 evs →
  bind m k c = Run (result (k a c1)) (context (k a c1)) (evs ++ events (k a c1)).
Proof. intros Hm. unfold bind. by rewrite Hm. Qed.

Lemma bind_halted {A B} (m : Proc A) (k : A → Proc B) c h c1 evs :
  m c = Run (Halted h) c1 evs → bind m k c = Run (Halted h) c1 evs.
Proof. intros Hm. unfold bind. by rewrite Hm. Qed.

Lemma emit_run e c : emit e c = Run (Returned tt) c [e].
Proof. done. Qed.

Lemma ret_run {A} (a : A) c : ret a c = Run (Returned a) c [].
Proof. done. Qed.

Lemma range_nil {A S} (body : S → A → Proc S) s c :
  range [] body s c = Run (Returned s) c [].
Proof. done. Qed.

Lemma range_cons {A S} (body : S → A → Proc S) x xs s :
  range (x :: xs) body s = bind (body s x) (λ s', range xs body s').
Proof. done. Qed.

(** A loop over [xs ++ ys] is the loop over [xs] followed by the loop
    over [ys]. *)
Lemma range_app {A S} (body : S → A → Proc S) xs ys s c s1 c1 evs :
  range xs body s c = Run (Returned s1) c1 evs →
  range (xs ++ ys) body s c =
    Run (result (range ys body s1 c1)) (context (range ys body s1 c1))
        (evs ++ events (range ys body s1 c1)).
Proof.
  revert s c evs. induction xs as [|x xs IH]; intros s c evs Hrun.
  - rewrite range_nil in Hrun. injection Hrun as -> -> <-. simpl.
    by rewrite run_eta.
  - rewrite range_cons in Hrun. simpl app. rewrite range_cons.
    unfold bind in *. destruct (body s x c) as [[s'|h] c' evs']; simpl in *.
    + destruct (range xs body s' c') as [r2 c2 evs2] eqn:Hxs. simpl in *.
      injection Hrun as -> -> <-.
      rewrite (IH _ _ _ Hxs). simpl. by rewrite (assoc_L (++)).
    + discriminate.
Qed.

(** What each call does, one equation per primitive. *)

Lemma getDryRun_run c : getDryRun c = Run (Returned (DryRun c)) c [].
Proof. done. Qed.

Lemma SetUploaded_run oid c :
  SetUploaded oid c =
    Run (Returned tt)
        {| DryRun := DryRun c; uploadedOids := {[oid]} ∪ uploadedOids c |} [].
Proof. done. Qed.

Lemma HasUploaded_run oid c :
  HasUploaded oid c = Run (Returned (bool_decide (oid ∈ uploadedOids c))) c [].
Proof. done. Qed.

Lemma ObjectExistsOfSize_run oid size c :
  ObjectExistsOfSize oid size c =
    Run (Returned (in_local_cache oid size)) c [EvObjectExistsOfSize oid size].
Proof. done. Qed.

Lemma NewDownloadCheckQueue_run count size strict c :
  NewDownloadCheckQueue count size strict c =
    Run (Returned []) c [EvNewDownloadCheckQueue count size strict].
Proof. done. Qed.

Lemma CheckQueue_Add_run checkQueue p c :
  CheckQueue_Add checkQueue p c =
    Run (Returned (checkQueue ++ [p])) c [EvCheckAdd p].
Proof. done. Qed.

Lemma CheckQueue_Watch_run checkQueue c :
  CheckQueue_Watch checkQueue c =
    Run (Returned (confirmations checkQueue)) c [EvCheckWatch].
Proof. done. Qed.

Lemma CheckQueue_Wait_run checkQueue c :
  CheckQueue_Wait checkQueue c = Run (Returned tt) c [EvCheckWait].
Proof. done. Qed.

Lemma NewUploadQueue_run count size dryRun c :
  NewUploadQueue count size dryRun c =
    Run (Returned {| q_numObjects := count; q_totalSize := size;
                     q_dryRun := dryRun; q_skipped := []; q_added := [] |})
        c [EvNewUploadQueue count size dryRun].
Proof. done. Qed.

Lemma Queue_Skip_run q size c :
  Queue_Skip q size c =
    Run (Returned {| q_numObjects := q_numObjects q;
                     q_totalSize := q_totalSize q; q_dryRun := q_dryRun q;
                     q_skipped := q_skipped q ++ [size];
                     q_added := q_added q |})
        c [EvSkip size].
Proof. done. Qed.

Lemma Queue_Add_run q u c :
  Queue_Add q u c =
    Run (Returned {| q_numObjects := q_numObjects q;
                     q_totalSize := q_totalSize q; q_dryRun := q_dryRun q;
                     q_skipped := q_skipped q;
                     q_added := q_added q ++ [u] |})
        c [EvAdd u].
Proof. done. Qed.

Lemma Queue_Wait_run q c : Queue_Wait q c = Run (Returned tt) c [EvQueueWait].
Proof. done. Qed.

Lemma Queue_Errors_run q c :
  Queue_Errors q c = Run (Returned (transfer_errors q)) c [].
Proof. done. Qed.

Lemma NewUploadable_run oid name c :
  NewUploadable oid name c =
    Run (Returned (materialized oid name)) c [EvNewUploadable oid name].
Proof. done. Qed.

Lemma Print_run format args c :
  Print format args c = Run (Returned tt) c [EvPrint (Fmt.Sprintf format args)].
Proof. done. Qed.

Lemma Error_run line c : Error line c = Run (Returned tt) c [EvError line].
Proof. done. Qed.

Lemma LoggedError_run e line c :
  LoggedError e line c = Run (Returned tt) c [EvLoggedError e line].
Proof. done. Qed.

Lemma Exit_run {A} format args c :
  Exit (A:=A) format args c =
    Run (Halted Aborted) c [EvExit (Fmt.Sprintf format args)].
Proof. done. Qed.

Lemma ExitWithError_run {A} e c :
  ExitWithError (A:=A) e c = Run (Halted Aborted) c [EvExitWithError e].
Proof. done. Qed.

Lemma os_Exit_run {A} code c :
  os_Exit (A:=A) code c = Run (Halted (ExitStatus code)) c [EvOsExit code].
Proof. done. Qed.

End ProcLaws.

(** Runs the first call of a [Proc] term with the equation [lem]. *)
Ltac call lem := erewrite bind_returned by apply lem; cbv beta.



(** ** The loops of [prepareUpload] and [checkMissing] *)

Section Loops.
Context `{Env}.

Lemma classify_step_seen st p c :
  Oid p ∈ uploadedOids c → classify_step st p c = Run (Returned st) c [].
Proof.
  intros Hin. unfold classify_step, bind, HasUploaded.
  cbn [result context events]. by rewrite bool_decide_eq_true_2.
Qed.

Lemma classify_step_present st p c :
  Oid p ∉ uploadedOids c →
  in_local_cache (Oid p) (Size p) = true →
  classify_step st p c =
    Run (Returned
           {| uploadables := uploadables st ++ [p];
              missingLocalObjects := missingLocalObjects st;
              numObjects := numObjects st + 1;
              totalSize := Int64.add (totalSize st) (Size p);
              missingSize := missingSize st |})
        c [EvObjectExistsOfSize (Oid p) (Size p)].
Proof.
  intros Hout Hin. unfold classify_step, bind, HasUploaded, ObjectExistsOfSize.
  cbn [result context events]. rewrite bool_decide_eq_false_2 by done.
  unfold bind. cbn [result context events emit ret]. by rewrite Hin.
Qed.

Lemma classify_step_absent st p c :
  Oid p ∉ uploadedOids c →
  in_local_cache (Oid p) (Size p) ≠ true →
  classify_step st p c =
    Run (Returned
           {| uploadables := uploadables st;
              missingLocalObjects := missingLocalObjects st ++ [p];
              numObjects := numObjects st + 1;
              totalSize := Int64.add (totalSize st) (Size p);
              missingSize := Int64.add (missingSize st) (Size p) |})
        c [EvObjectExistsOfSize (Oid p) (Size p)].
Proof.
  intros Hout Hin. unfold classify_step, bind, HasUploaded, ObjectExistsOfSize.
  cbn [result context events]. rewrite bool_decide_eq_false_2 by done.
  unfold bind. cbn [result context events emit ret].
  by destruct (in_local_cache (Oid p) (Size p)).
Qed.

(** The first loop of [prepareUpload], from any values of its locals:
    it leaves the context alone, asks the local cache once per counted
    candidate, and extends the locals by the counted candidates. *)
Lemma classify_from l st c :
  range l classify_step st c =
    Run (Returned
           {| uploadables := uploadables st ++ present (counted c l);
              missingLocalObjects :=
                missingLocalObjects st ++ absent (counted c l);
              numObjects := numObjects st + Z.of_nat (length (counted c l));
              totalSize :=
                foldl Int64.add (totalSize st) (Size <$> counted c l);
              missingSize :=
                foldl Int64.add (missingSize st)
                      (Size <$> absent (counted c l)) |})
        c
        ((λ p, EvObjectExistsOfSize (Oid p) (Size p)) <$> counted c l).
Proof.
  revert st. induction l as [|p l IH]; intros st.
  - rewrite range_nil. destruct st. unfold counted, present, absent. cbn.
    by rewrite !(right_id_L [] (++)), Z.add_0_r.
  - rewrite range_cons. unfold counted. rewrite filter_cons.
    fold (counted c l).
    destruct (decide (Oid p ∉ uploadedOids c)) as [Hnew|Hold].
    + unfold present, absent. rewrite !filter_cons.
      fold (present (counted c l)) (absent (counted c l)).
      destruct (decide (in_local_cache (Oid p) (Size p) = true)) as [Hin|Hin].
      * rewrite decide_False by (intros Hno; by apply Hno).
        erewrite bind_returned by (by apply classify_step_present).
        rewrite IH.
        cbn [result context events uploadables missingLocalObjects
             numObjects totalSize missingSize].
        rewrite !fmap_cons. cbn [foldl length app].
        rewrite <- (assoc_L (++)). do 3 f_equal. lia.
      * rewrite decide_True by done.
        erewrite bind_returned by (by apply classify_step_absent).
        rewrite IH.
        cbn [result context events uploadables missingLocalObjects
             numObjects totalSize missingSize].
        rewrite !fmap_cons. cbn [foldl length app].
        rewrite <- (assoc_L (++)). do 3 f_equal. lia.
    + erewrite bind_returned by (apply classify_step_seen; by apply dec_stable).
      rewrite IH. by destruct st.
Qed.

Lemma classify_run l c :
  classify l c =
    Run (Returned
           {| uploadables := present (counted c l);
              missingLocalObjects := absent (counted c l);
              numObjects := Z.of_nat (length (counted c l));
              totalSize := Int64.wrap (sum_sizes (counted c l));
              missingSize := Int64.wrap (sum_sizes (absent (counted c l))) |})
        c
        ((λ p, EvObjectExistsOfSize (Oid p) (Size p)) <$> counted c l).
Proof.
  unfold classify. rewrite classify_from. simpl.
  change 0 with (Int64.wrap 0) at 2 3.
  by rewrite !foldl_add_wrap, !sum_sizes_fmap.
Qed.

(** The collector: one [SetUploaded] per received oid. *)
Lemma collect_run oids c :
  range_ oids SetUploaded c =
    Run (Returned tt)
        {| DryRun := DryRun c;
           uploadedOids := list_to_set oids ∪ uploadedOids c |}
        [].
Proof.
  unfold range_. revert c. induction oids as [|oid oids IH]; intros c.
  - rewrite range_nil. destruct c. simpl. f_equal. f_equal.
    by rewrite (left_id_L ∅ (∪)).
  - rewrite range_cons. call SetUploaded_run.
    rewrite IH. cbn [result context events app DryRun uploadedOids].
    f_equal. f_equal. rewrite list_to_set_cons. set_solver.
Qed.

Lemma check_adds_run (missing : list WrappedPointer) checkQueue c :
  range missing CheckQueue_Add checkQueue c =
    Run (Returned (checkQueue ++ missing)) c (EvCheckAdd <$> missing).
Proof.
  revert checkQueue. induction missing as [|p l IH]; intros checkQueue.
  - rewrite range_nil. by rewrite (right_id_L [] (++)).
  - rewrite range_cons. call CheckQueue_Add_run.
    rewrite IH. cbn [result context events]. by rewrite <- (assoc_L (++)).
Qed.

Lemma checkMissing_run missing missingSize c :
  checkMissing missing missingSize c =
    Run (Returned tt) (reconciled c missing) (check_events missing missingSize).
Proof.
  unfold checkMissing. destruct missing as [|p l].
  - simpl. unfold ret, reconciled. destruct c. simpl. f_equal. f_equal.
    by rewrite (left_id_L ∅ (∪)).
  - replace (Z.of_nat (length (p :: l)) =? 0) with false
      by (symmetry; apply Z.eqb_neq; simpl length; lia).
    call NewDownloadCheckQueue_run. call check_adds_run.
    call CheckQueue_Watch_run. call CheckQueue_Wait_run.
    rewrite collect_run. reflexivity.
Qed.

Lemma skip_step_confirmed q ups p c :
  Oid p ∈ uploadedOids c →
  skip_step (q, ups) p c =
    Run (Returned
           ({| q_numObjects := q_numObjects q; q_totalSize := q_totalSize q;
               q_dryRun := q_dryRun q; q_skipped := q_skipped q ++ [Size p];
               q_added := q_added q |}, ups))
        c [EvSkip (Size p)].
Proof.
  intros Hin. unfold skip_step, bind, HasUploaded.
  cbn [result context events]. by rewrite bool_decide_eq_true_2.
Qed.

Lemma skip_step_kept q ups p c :
  Oid p ∉ uploadedOids c →
  skip_step (q, ups) p c = Run (Returned (q, ups ++ [p])) c [].
Proof.
  intros Hout. unfold skip_step, bind, HasUploaded.
  cbn [result context events]. by rewrite bool_decide_eq_false_2.
Qed.

(** The second loop of [prepareUpload], from any queue and list: one
    [Skip] per pointer whose oid is in the set, the others are kept. *)
Lemma skip_from l q ups c :
  range l skip_step (q, ups) c =
    Run (Returned
           ({| q_numObjects := q_numObjects q; q_totalSize := q_totalSize q;
               q_dryRun := q_dryRun q;
               q_skipped :=
                 q_skipped q
                 ++ (Size <$> filter (λ p, Oid p ∈ uploadedOids c) l);
               q_added := q_added q |},
            ups ++ filter (λ p, Oid p ∉ uploadedOids c) l))
        c
        (EvSkip <$> (Size <$> filter (λ p, Oid p ∈ uploadedOids c) l)).
Proof.
  revert q ups. induction l as [|p l IH]; intros q ups.
  - rewrite range_nil. destruct q. cbn. by rewrite !(right_id_L [] (++)).
  - rewrite range_cons. rewrite !filter_cons.
    destruct (decide (Oid p ∈ uploadedOids c)) as [Hin|Hout].
    + rewrite decide_False by (intros Hn; by apply Hn).
      erewrite bind_returned by (by apply skip_step_confirmed).
      rewrite IH.
      cbn [result context events q_numObjects q_totalSize q_dryRun
           q_skipped q_added].
      rewrite !fmap_cons. by rewrite <- (assoc_L (++)).
    + rewrite decide_True by done.
      erewrite bind_returned by (by apply skip_step_kept).
      rewrite IH. cbn [result context events app].
      by rewrite <- (assoc_L (++)).
Qed.

End Loops.

Section PrepareUpload.
Context `{Env}.

(** [prepareUpload] in closed form. *)
Lemma prepareUpload_run l c :
  let F := counted c l in
  let M := absent F in
  let c' := reconciled c M in
  prepareUpload l c =
    Run (Returned
           ({| q_numObjects := Z.of_nat (length F);
               q_totalSize := Int64.wrap (sum_sizes F);
               q_dryRun := DryRun c;
               q_skipped := Size <$> filter (λ p, Oid p ∈ uploadedOids c') M;
               q_added := [] |},
            present F ++ filter (λ p, Oid p ∉ uploadedOids c') M))
        c'
        (((λ p, EvObjectExistsOfSize (Oid p) (Size p)) <$> F)
         ++ check_events M (Int64.wrap (sum_sizes M))
         ++ [EvNewUploadQueue (Z.of_nat (length F))
                              (Int64.wrap (sum_sizes F)) (DryRun c)]
         ++ (EvSkip <$> (Size <$> filter (λ p, Oid p ∈ uploadedOids c') M))).
Proof.
  intros F M c'. unfold prepareUpload.
  call classify_run.
  cbn [numObjects totalSize missingSize uploadables missingLocalObjects].
  call checkMissing_run. call getDryRun_run. call NewUploadQueue_run.
  rewrite skip_from.
  cbn [result context events q_numObjects q_totalSize q_dryRun q_skipped
       q_added app].
  reflexivity.
Qed.

End PrepareUpload.

(** ** The loops of [upload] *)

Section UploadLoops.
Context `{Env}.

Lemma dry_step_seen p c :
  Oid p ∈ uploadedOids c → dry_step p c = Run (Returned tt) c [].
Proof.
  intros Hin. unfold dry_step. call HasUploaded_run.
  by rewrite bool_decide_eq_true_2.
Qed.

Lemma dry_step_new p c :
  Oid p ∉ uploadedOids c →
  dry_step p c =
    Run (Returned tt)
        {| DryRun := DryRun c; uploadedOids := {[Oid p]} ∪ uploadedOids c |}
        [EvPrint (push_line p)].
Proof.
  intros Hout. unfold dry_step. call HasUploaded_run.
  rewrite bool_decide_eq_false_2 by done. call Print_run.
  rewrite SetUploaded_run, Sprintf_push. reflexivity.
Qed.

Lemma dry_run_from l c :
  range_ l dry_step c =
    Run (Returned tt)
        {| DryRun := DryRun c;
           uploadedOids := list_to_set (Oid <$> l) ∪ uploadedOids c |}
        ((λ p, EvPrint (push_line p)) <$> announced (uploadedOids c) l).
Proof.
  unfold range_. revert c. induction l as [|p l IH]; intros c.
  - rewrite range_nil. destruct c. cbn. by rewrite (left_id_L ∅ (∪)).
  - rewrite range_cons. cbn [announced].
    destruct (decide (Oid p ∈ uploadedOids c)) as [Hin|Hout].
    + erewrite bind_returned by (by apply dry_step_seen).
      rewrite IH. cbn [result context events app]. f_equal. f_equal.
      rewrite fmap_cons, list_to_set_cons. set_solver.
    + erewrite bind_returned by (by apply dry_step_new).
      rewrite IH. cbn [result context events app DryRun uploadedOids].
      f_equal. f_equal. rewrite fmap_cons, list_to_set_cons. set_solver.
Qed.

(** A turn of the enqueue loop on a pointer that materializes. *)
Lemma enqueue_step_ok q p u c :
  materialized (Oid p) (Name p) = inl u →
  enqueue_step q p c =
    Run (Returned
           {| q_numObjects := q_numObjects q; q_totalSize := q_totalSize q;
              q_dryRun := q_dryRun q; q_skipped := q_skipped q;
              q_added := q_added q ++ [u] |})
        {| DryRun := DryRun c; uploadedOids := {[Oid p]} ∪ uploadedOids c |}
        [EvNewUploadable (Oid p) (Name p); EvAdd u].
Proof.
  intros Hu. unfold enqueue_step. call NewUploadable_run. rewrite Hu.
  call Queue_Add_run. call SetUploaded_run. reflexivity.
Qed.

(** A turn of the enqueue loop on a pointer that does not. *)
Lemma enqueue_step_fails q p err c :
  materialized (Oid p) (Name p) = inr err →
  enqueue_step q p c =
    Run (Halted Aborted) c [EvNewUploadable (Oid p) (Name p); abort_event p err].
Proof.
  intros Herr. unfold enqueue_step, abort_event. call NewUploadable_run.
  rewrite Herr. destruct (err_clean_pointer err) as [actual|].
  - rewrite Exit_run, Sprintf_uploadMissingErr. reflexivity.
  - rewrite ExitWithError_run. reflexivity.
Qed.

Lemma enqueue_all ps q c :
  Forall materializes ps →
  range ps enqueue_step q c =
    Run (Returned
           {| q_numObjects := q_numObjects q; q_totalSize := q_totalSize q;
              q_dryRun := q_dryRun q; q_skipped := q_skipped q;
              q_added := q_added q ++ omap unit_of ps |})
        {| DryRun := DryRun c;
           uploadedOids := list_to_set (Oid <$> ps) ∪ uploadedOids c |}
        (concat (enqueued <$> ps)).
Proof.
  intros Hps. revert q c. induction Hps as [|p ps [u Hu] _ IH]; intros q c.
  - rewrite range_nil. destruct q, c. cbn.
    by rewrite (right_id_L [] (++)), (left_id_L ∅ (∪)).
  - rewrite range_cons. erewrite bind_returned by (by apply enqueue_step_ok).
    rewrite IH. cbn [result context events DryRun uploadedOids q_numObjects
                     q_totalSize q_dryRun q_skipped q_added].
    assert (omap unit_of (p :: ps) = u :: omap unit_of ps) as ->
      by (cbn; unfold unit_of at 1; by rewrite Hu).
    assert (enqueued p = [EvNewUploadable (Oid p) (Name p); EvAdd u]) as He
      by (unfold enqueued; by rewrite Hu).
    rewrite !fmap_cons. cbn [concat]. rewrite He, list_to_set_cons.
    rewrite <- (assoc_L (++)). f_equal. f_equal. set_solver.
Qed.

Lemma enqueue_aborts pre p post err q c :
  Forall materializes pre →
  materialized (Oid p) (Name p) = inr err →
  range (pre ++ p :: post) enqueue_step q c =
    Run (Halted Aborted)
        {| DryRun := DryRun c;
           uploadedOids := list_to_set (Oid <$> pre) ∪ uploadedOids c |}
        (concat (enqueued <$> pre)
         ++ [EvNewUploadable (Oid p) (Name p); abort_event p err]).
Proof.
  intros Hpre Herr. erewrite range_app by (by apply enqueue_all).
  rewrite range_cons. erewrite bind_halted by (by apply enqueue_step_fails).
  reflexivity.
Qed.

Lemma report_step_run err c :
  report_step err c = Run (Returned tt) c (reported err).
Proof.
  unfold report_step, reported, IsFatalError, GetInnerError.
  destruct (Debugging || err_fatal err); [apply LoggedError_run|].
  destruct (err_inner err).
  - call Error_run. rewrite Error_run. reflexivity.
  - erewrite bind_returned by apply (ret_run tt). rewrite Error_run.
    reflexivity.
Qed.

Lemma report_all errs c :
  range_ errs report_step c = Run (Returned tt) c (concat (reported <$> errs)).
Proof.
  unfold range_. induction errs as [|err errs IH]; [done|].
  rewrite range_cons. call report_step_run. rewrite IH. reflexivity.
Qed.

(** [upload] in dry-run. *)
Lemma upload_dry l c :
  DryRun c = true → upload l c = range_ l dry_step c.
Proof.
  intros Hdry. unfold upload. call getDryRun_run. rewrite Hdry.
  cbv iota. cbn [app]. by rewrite run_eta.
Qed.

(** [upload] in real mode when every unit can be made. *)
Lemma upload_real_drains l c q0 pointers :
  DryRun c = false →
  result (prepareUpload l c) = Returned (q0, pointers) →
  Forall materializes pointers →
  let q := {| q_numObjects := q_numObjects q0; q_totalSize := q_totalSize q0;
              q_dryRun := q_dryRun q0; q_skipped := q_skipped q0;
              q_added := q_added q0 ++ omap unit_of pointers |} in
  upload l c =
    Run (match transfer_errors q with
         | [] => Returned tt
         | _ :: _ => Halted (ExitStatus 2)
         end)
        {| DryRun := false;
           uploadedOids := list_to_set (Oid <$> pointers)
                           ∪ uploadedOids (context (prepareUpload l c)) |}
        (events (prepareUpload l c)
         ++ concat (enqueued <$> pointers)
         ++ [EvQueueWait]
         ++ concat (reported <$> transfer_errors q)
         ++ match transfer_errors q with [] => [] | _ :: _ => [EvOsExit 2] end).
Proof.
  intros Hreal Hprep Hmat q. unfold upload.
  call getDryRun_run. rewrite Hreal. cbv iota.
  destruct (prepareUpload l c) as [r1 c1 evs1] eqn:Hrun.
  cbn [result context events] in *. subst r1.
  erewrite bind_returned by exact Hrun. cbv beta iota.
  erewrite bind_returned by (by apply enqueue_all). fold q.
  call Queue_Wait_run. call Queue_Errors_run. call report_all.
  call Queue_Errors_run.
  assert (DryRun c1 = false) as ->.
  { pose proof (prepareUpload_run l c) as Hp. cbv zeta in Hp.
    rewrite Hrun in Hp. injection Hp as _ _ -> _. exact Hreal. }
  destruct (transfer_errors q) as [|e errs].
  - replace (0 <? Z.of_nat (@length lfs_error [])) with false by reflexivity.
    rewrite ret_run. cbn [result context events concat fmap list_fmap app].
    reflexivity.
  - replace (0 <? Z.of_nat (length (e :: errs))) with true
      by (symmetry; apply Z.ltb_lt; simpl length; lia).
    rewrite os_Exit_run. reflexivity.
Qed.

(** [upload] in real mode when some unit cannot be made. *)
Lemma upload_real_aborts l c q0 pre p post err :
  DryRun c = false →
  result (prepareUpload l c) = Returned (q0, pre ++ p :: post) →
  Forall materializes pre →
  materialized (Oid p) (Name p) = inr err →
  upload l c =
    Run (Halted Aborted)
        {| DryRun := DryRun (context (prepareUpload l c));
           uploadedOids := list_to_set (Oid <$> pre)
                           ∪ uploadedOids (context (prepareUpload l c)) |}
        (events (prepareUpload l c)
         ++ concat (enqueued <$> pre)
         ++ [EvNewUploadable (Oid p) (Name p); abort_event p err]).
Proof.
  intros Hreal Hprep Hpre Herr. unfold upload.
  call getDryRun_run. rewrite Hreal. cbv iota.
  destruct (prepareUpload l c) as [r1 c1 evs1] eqn:Hrun.
  cbn [result context events] in *. subst r1.
  erewrite bind_returned by exact Hrun. cbv beta iota.
  erewrite bind_halted by (by apply enqueue_aborts).
  reflexivity.
Qed.

End UploadLoops.

(** ** The barrier of [checkMissing] *)

Section BarrierFacts.
Import Barrier.
Variable oids0 : gset string.
Variable stream : list string.

Lemma invariant_start : invariant oids0 stream (start oids0 stream).
Proof.
  unfold invariant, start; simpl. split_and!; try done.
  - exists []. simpl. split; [done|]. by rewrite (left_id_L ∅ (∪)).
  - by intros [?|?].
Qed.

Lemma invariant_queue_step s s' :
  invariant oids0 stream s → queue_step s s' → invariant oids0 stream s'.
Proof.
  intros ([marked [Hsplit Hoids]] & Hclosed & Hleft & Hwait & Hret) Hstep.
  unfold invariant.
  destruct Hstep as [s oid rest Hp Hc | s Hp Hc]; simpl;
    (split; [|naive_solver congruence]).
  - exists marked. split; [|done].
    rewrite Hsplit, Hp. by rewrite <- !(assoc_L (++)).
  - exists marked. by rewrite <- Hp.
Qed.

Lemma invariant_task_step s s' :
  invariant oids0 stream s → task_step s s' → invariant oids0 stream s'.
Proof.
  intros ([marked [Hsplit Hoids]] & Hclosed & Hleft & Hwait & Hret) Hstep.
  unfold invariant, checks_done in *.
  destruct Hstep as [s Hm Hp | s oid rest Hcol Ht | s oid Hcol
                    | s Hcol Ht Hc | s Hcol Hm]; simpl;
    (split; [|naive_solver congruence]).
  - by exists marked.
  - exists marked. split; [|done]. rewrite Hsplit, Hcol, Ht. reflexivity.
  - exists (marked ++ [oid]). split.
    + rewrite Hsplit, Hcol. simpl. by rewrite <- (assoc_L (++)).
    + rewrite Hoids, list_to_set_app_L. set_solver.
  - exists marked. split; [|done]. rewrite Hsplit, Hcol, Ht. reflexivity.
  - exists marked. split; [|done]. rewrite Hsplit, Hcol. reflexivity.
Qed.

Lemma invariant_step s s' :
  invariant oids0 stream s → step s s' → invariant oids0 stream s'.
Proof.
  intros Hinv [Hstep|Hstep];
    [by eapply invariant_queue_step | by eapply invariant_task_step].
Qed.

Lemma invariant_reachable s :
  reachable oids0 stream s → invariant oids0 stream s.
Proof.
  unfold reachable. revert s. apply rtc_ind_r.
  - apply invariant_start.
  - intros s1 s2 _ Hstep IH. by eapply invariant_step.
Qed.

(** Once the caller has returned, nobody has a step left. *)
Lemma returned_is_final s s' :
  invariant oids0 stream s → main s = HasReturned → ¬ step s s'.
Proof.
  intros (_ & Hclosed & Hleft & Hwait & Hret) Hm Hstep.
  assert (collector s = Finished) as Hfin by (by apply Hret).
  destruct (Hleft (or_intror Hfin)) as [Hc Ht].
  destruct Hstep as [Hstep|Hstep]; inversion Hstep; subst; congruence.
Qed.

(** A state in which the caller has returned is [finished]. *)
Lemma returned_is_finished s :
  invariant oids0 stream s → main s = HasReturned →
  s = finished oids0 stream.
Proof.
  intros ([marked [Hsplit Hoids]] & Hclosed & Hleft & Hwait & Hret) Hm.
  assert (collector s = Finished) as Hfin by (by apply Hret).
  destruct (Hleft (or_intror Hfin)) as [Hc Ht].
  assert (pending s = []) as Hp by (by apply Hclosed).
  rewrite Hfin, Ht, Hp in Hsplit. simpl in Hsplit.
  rewrite (right_id_L [] (++)) in Hsplit. subst marked.
  destruct s. unfold finished. simpl in *. by subst.
Qed.

(** No run goes on for ever: every step uses up some of the weight. *)
Lemma step_uses_weight s s' : step s s' → (weight s' < weight s)%nat.
Proof.
  unfold weight, checks_done.
  intros [Hstep|Hstep].
  - destruct Hstep as [s oid rest Hp Hc | s Hp Hc]; simpl;
      rewrite ?Hp, ?Hc, ?length_app; simpl; lia.
  - destruct Hstep as [s Hm Hp | s oid rest Hcol Ht | s oid Hcol
                      | s Hcol Ht Hc | s Hcol Hm]; simpl;
      rewrite ?Hp, ?Hc, ?Hm, ?Hcol, ?Ht; simpl; lia.
Qed.

(** No run gets stuck before the caller has returned. *)
Lemma progress s :
  invariant oids0 stream s → main s ≠ HasReturned → ∃ s', step s s'.
Proof.
  intros (_ & Hclosed & Hleft & Hwait & Hret) Hmain.
  destruct (pending s) as [|oid rest] eqn:Hp.
  - destruct (closed s) eqn:Hc;
      [|eexists; left; by apply queue_closes].
    destruct (collector s) as [|oid| |] eqn:Hcol.
    + destruct (transferc s) as [|oid rest] eqn:Ht.
      * eexists. right. by apply collector_leaves_range.
      * eexists. right. by eapply collector_receives.
    + eexists. right. by eapply collector_sets.
    + destruct (main s) eqn:Hm; [| |done].
      * eexists. right. by apply wait_returns.
      * eexists. right. by apply done_is_passed.
    + destruct Hmain. by apply Hret.
  - destruct (closed s) eqn:Hc.
    + specialize (Hclosed eq_refl). discriminate.
    + eexists. left. by eapply queue_sends.
Qed.

(** Whatever the tasks have done so far, [checkMissing] can still
    return, and however they go on, it returns after at most
    [weight s] more steps. *)
Lemma returns_from s :
  reachable oids0 stream s → rtc step s (finished oids0 stream).
Proof.
  intros Hreach. pose proof (invariant_reachable s Hreach) as Hinv.
  remember (weight s) as n eqn:Hn. revert s Hreach Hinv Hn.
  induction n as [n IH] using lt_wf_ind. intros s Hreach Hinv ->.
  assert (main s = HasReturned ∨ main s ≠ HasReturned) as [Hm|Hm]
    by (destruct (main s); [right|right|left]; congruence).
  - rewrite (returned_is_finished s) by done. apply rtc_refl.
  - destruct (progress s Hinv Hm) as [s' Hstep].
    eapply rtc_l; [exact Hstep|].
    eapply (IH (weight s')); [by apply step_uses_weight| | |done].
    + unfold reachable in *. by eapply rtc_r.
    + by eapply invariant_step.
Qed.

(** The run in which every oid is sent, received and marked in turn. *)
Lemma drain_run main0 marked rest :
  rtc step
    {| main := main0; collector := AtRange; pending := rest; transferc := [];
       closed := false; oids := list_to_set marked ∪ oids0 |}
    {| main := main0; collector := AtRange; pending := []; transferc := [];
       closed := false; oids := list_to_set (marked ++ rest) ∪ oids0 |}.
Proof.
  revert marked. induction rest as [|oid rest IH]; intros marked.
  - rewrite (right_id_L [] (++)). apply rtc_refl.
  - eapply rtc_l; [left; by eapply (queue_sends _ oid rest)|]. simpl.
    eapply rtc_l; [right; by eapply (collector_receives _ oid [])|]. simpl.
    eapply rtc_l; [right; by eapply (collector_sets _ oid)|]. simpl.
    replace ({[oid]} ∪ (list_to_set marked ∪ oids0))
      with (list_to_set (marked ++ [oid]) ∪ oids0 : gset string)
      by (rewrite list_to_set_app_L; set_solver).
    replace (marked ++ oid :: rest) with ((marked ++ [oid]) ++ rest)
      by (by rewrite <- (assoc_L (++))).
    apply IH.
Qed.

(** [checkMissing] can return: the barrier does not block for ever. *)
Lemma barrier_passable : reachable oids0 stream (finished oids0 stream).
Proof.
  unfold reachable, start, finished.
  eapply rtc_trans.
  { pose proof (drain_run InWait [] stream) as Hrun. simpl in Hrun.
    rewrite (left_id_L ∅ (∪)) in Hrun. exact Hrun. }
  eapply rtc_l; [left; by eapply queue_closes|]. simpl.
  eapply rtc_l; [right; by eapply wait_returns|]. simpl.
  eapply rtc_l; [right; by eapply collector_leaves_range|]. simpl.
  eapply rtc_l; [right; by eapply done_is_passed|]. simpl.
  apply rtc_refl.
Qed.

(** [checkQueue.Wait()] alone does not synchronize with the collector:
    the caller can be past it while a sent oid is not yet marked. This
    is what the comment at line 112 says, and why line 114 is there. *)
Lemma wait_alone_is_not_enough oid rest :
  stream = oid :: rest → oid ∉ oids0 →
  ∃ s, reachable oids0 stream s ∧ main s = AtReceiveDone ∧ oid ∉ oids s.
Proof.
  intros -> Hnew.
  assert (∀ sent todo,
    rtc step
      {| main := InWait; collector := AtRange; pending := todo;
         transferc := sent; closed := false; oids := oids0 |}
      {| main := InWait; collector := AtRange; pending := [];
         transferc := sent ++ todo; closed := false; oids := oids0 |})
    as Hsend.
  { intros sent todo. revert sent.
    induction todo as [|x todo IH]; intros sent.
    - rewrite (right_id_L [] (++)). apply rtc_refl.
    - eapply rtc_l; [left; by eapply (queue_sends _ x todo)|]. simpl.
      replace (sent ++ x :: todo) with ((sent ++ [x]) ++ todo)
        by (by rewrite <- (assoc_L (++))).
      apply IH. }
  eexists. split_and!.
  - unfold reachable, start. eapply rtc_trans; [apply Hsend|].
    eapply rtc_l; [right; by eapply wait_returns|]. simpl. apply rtc_refl.
  - done.
  - done.
Qed.

End BarrierFacts.

(** ** No operation removes an oid *)

Section Grows.
Context `{Env}.

Lemma grows_ret {A} (a : A) : grows (ret a).
Proof. intros c. done. Qed.

Lemma grows_emit e : grows (emit e).
Proof. intros c. done. Qed.

Lemma grows_stop {A} h : grows (stop (A:=A) h).
Proof. intros c. done. Qed.

Lemma grows_getDryRun : grows getDryRun.
Proof. intros c. done. Qed.

Lemma grows_SetUploaded oid : grows (SetUploaded oid).
Proof. intros c. simpl. split; [done|]. apply union_subseteq_r. Qed.

Lemma grows_HasUploaded oid : grows (HasUploaded oid).
Proof. intros c. done. Qed.

Lemma grows_bind {A B} (m : Proc A) (k : A → Proc B) :
  grows m → (∀ a, grows (k a)) → grows (bind m k).
Proof.
  intros Hm Hk c. unfold bind. destruct (Hm c) as [Hd Hsub].
  destruct (m c) as [[a|h] c1 evs]; simpl in *; [|done].
  destruct (Hk a c1) as [Hd' Hsub']. split; [congruence|].
  by etrans.
Qed.

Lemma grows_range {A S} (xs : list A) (body : S → A → Proc S) s :
  (∀ s x, grows (body s x)) → grows (range xs body s).
Proof.
  intros Hbody. revert s. induction xs as [|x xs IH]; intros s.
  - apply grows_ret.
  - rewrite range_cons. apply grows_bind; [apply Hbody | apply IH].
Qed.

Lemma grows_range_ {A} (xs : list A) (body : A → Proc unit) :
  (∀ x, grows (body x)) → grows (range_ xs body).
Proof. intros Hbody. apply grows_range. intros _ x. apply Hbody. Qed.

End Grows.

Create HintDb grows.
#[export] Hint Resolve grows_ret grows_emit grows_stop grows_getDryRun
  grows_SetUploaded grows_HasUploaded : grows.

(** Breaks a [grows] goal along the shape of the program. *)
Ltac grows_tac :=
  repeat first
    [ progress auto with grows
    | apply grows_bind; [|intros ?]
    | apply grows_range; intros ? ?
    | apply grows_range_; intros ?
    | match goal with
      | |- grows (if ?b then _ else _) => destruct b
      | |- grows (match ?x with _ => _ end) => destruct x
      | |- grows (let '(_, _) := ?x in _) => destruct x
      end ].

Section GrowsUploader.
Context `{Env}.

Lemma grows_classify l : grows (classify l).
Proof. unfold classify, classify_step, ObjectExistsOfSize. grows_tac. Qed.

Lemma grows_checkMissing missing missingSize :
  grows (checkMissing missing missingSize).
Proof.
  unfold checkMissing, NewDownloadCheckQueue, CheckQueue_Add,
    CheckQueue_Watch, CheckQueue_Wait.
  grows_tac.
Qed.

Lemma grows_prepareUpload l : grows (prepareUpload l).
Proof.
  unfold prepareUpload, NewUploadQueue, skip_step, Queue_Skip.
  pose proof grows_classify. pose proof grows_checkMissing. grows_tac.
Qed.

Lemma grows_upload l : grows (upload l).
Proof.
  unfold upload, dry_step, enqueue_step, report_step, NewUploadable,
    Queue_Add, Queue_Wait, Queue_Errors, Print, Error, LoggedError, Exit,
    ExitWithError, os_Exit.
  pose proof grows_prepareUpload. grows_tac.
Qed.

Lemma grows_subseteq {A} (m : Proc A) c :
  grows m → uploadedOids c ⊆ uploadedOids (context (m c)).
Proof. intros Hm. apply Hm. Qed.

Lemma perform_grows c o : uploadedOids c ⊆ uploadedOids (perform c o).
Proof.
  destruct o as [oid|oid|l|l size|l|l]; cbn [perform].
  - apply (grows_subseteq (SetUploaded oid)), grows_SetUploaded.
  - apply (grows_subseteq (HasUploaded oid)), grows_HasUploaded.
  - apply (grows_subseteq (classify l)), grows_classify.
  - apply (grows_subseteq (checkMissing l size)), grows_checkMissing.
  - apply (grows_subseteq (prepareUpload l)), grows_prepareUpload.
  - apply (grows_subseteq (upload l)), grows_upload.
Qed.

Lemma session_grows ops c : uploadedOids c ⊆ uploadedOids (session c ops).
Proof.
  unfold session. revert c. induction ops as [|o ops IH]; intros c; simpl.
  - done.
  - etrans; [apply (perform_grows c o) | apply IH].
Qed.

End GrowsUploader.

Lemma barrier_step_grows s s' :
  Barrier.step s s' → Barrier.oids s ⊆ Barrier.oids s'.
Proof.
  intros [Hstep|Hstep]; destruct Hstep; simpl; try done.
  apply union_subseteq_r.
Qed.

(** ** What dry-run announces *)

Lemma announced_sublist seen l : sublist (announced seen l) l.
Proof.
  revert seen. induction l as [|p l IH]; intros seen; simpl.
  - constructor.
  - destruct (decide (Oid p ∈ seen)).
    + apply sublist_cons, IH.
    + apply sublist_skip, IH.
Qed.

Lemma announced_fresh seen l p : p ∈ announced seen l → Oid p ∉ seen.
Proof.
  revert seen. induction l as [|x l IH]; intros seen; simpl.
  - by intros ?%elem_of_nil.
  - destruct (decide (Oid x ∈ seen)) as [Hin|Hout].
    + apply IH.
    + intros [->|Hp]%elem_of_cons; [done|].
      apply IH in Hp. set_solver.
Qed.

Lemma announced_NoDup seen l : NoDup (Oid <$> announced seen l).
Proof.
  revert seen. induction l as [|x l IH]; intros seen; simpl.
  - constructor.
  - destruct (decide (Oid x ∈ seen)) as [Hin|Hout]; [apply IH|].
    rewrite fmap_cons. constructor; [|apply IH].
    intros (p & Heq & Hp)%list_elem_of_fmap.
    apply announced_fresh in Hp. set_solver.
Qed.

Lemma announced_covers seen l p :
  p ∈ l → Oid p ∉ seen → Oid p ∈ Oid <$> announced seen l.
Proof.
  revert seen. induction l as [|x l IH]; intros seen; simpl.
  - by intros ?%elem_of_nil.
  - intros Hp Hnew. destruct (decide (Oid x ∈ seen)) as [Hin|Hout].
    + apply IH; [|done]. apply elem_of_cons in Hp as [->|Hp]; done.
    + rewrite fmap_cons. destruct (decide (Oid p = Oid x)) as [->|Hne].
      * apply elem_of_cons. by left.
      * apply elem_of_cons. right. apply IH.
        -- apply elem_of_cons in Hp as [->|Hp]; done.
        -- set_solver.
Qed.

(** A pointer is announced at its turn exactly when its oid is neither
    in the set nor carried by a pointer before it. *)
Lemma announced_app seen l1 l2 :
  announced seen (l1 ++ l2) =
    announced seen l1 ++ announced (list_to_set (Oid <$> l1) ∪ seen) l2.
Proof.
  revert seen. induction l1 as [|x l1 IH]; intros seen; simpl.
  - by rewrite (left_id_L ∅ (∪)).
  - destruct (decide (Oid x ∈ seen)) as [Hin|Hout].
    + rewrite IH. f_equal. f_equal. set_solver.
    + rewrite IH. simpl. f_equal. f_equal. f_equal. set_solver.
Qed.

Lemma announced_all_seen seen l :
  (∀ p, p ∈ l → Oid p ∈ seen) → announced seen l = [].
Proof.
  induction l as [|x l IH]; intros Hall; simpl; [done|].
  rewrite decide_True by (apply Hall; by left).
  apply IH. intros p Hp. apply Hall. by right.
Qed.

(** ** Reading the events of [prepareUpload] *)

Section Readers.
Context `{Env}.

Lemma skips_app evs1 evs2 : skips (evs1 ++ evs2) = skips evs1 ++ skips evs2.
Proof. apply omap_app. Qed.

Lemma queues_made_app evs1 evs2 :
  queues_made (evs1 ++ evs2) = queues_made evs1 ++ queues_made evs2.
Proof. apply omap_app. Qed.

Lemma skips_queries (l : list WrappedPointer) :
  skips ((λ p, EvObjectExistsOfSize (Oid p) (Size p)) <$> l) = [].
Proof. induction l as [|p l IH]; [done|]. exact IH. Qed.

Lemma queues_made_queries (l : list WrappedPointer) :
  queues_made ((λ p, EvObjectExistsOfSize (Oid p) (Size p)) <$> l) = [].
Proof. induction l as [|p l IH]; [done|]. exact IH. Qed.

Lemma skips_check_adds (l : list WrappedPointer) : skips (EvCheckAdd <$> l) = [].
Proof. induction l as [|p l IH]; [done|]. exact IH. Qed.

Lemma queues_made_check_adds (l : list WrappedPointer) :
  queues_made (EvCheckAdd <$> l) = [].
Proof. induction l as [|p l IH]; [done|]. exact IH. Qed.

Lemma skips_check_events missing size : skips (check_events missing size) = [].
Proof.
  destruct missing as [|p l]; [done|]. unfold check_events.
  change (skips ((EvCheckAdd <$> p :: l) ++ [EvCheckWatch; EvCheckWait]) = []).
  by rewrite skips_app, skips_check_adds.
Qed.

Lemma queues_made_check_events missing size :
  queues_made (check_events missing size) = [].
Proof.
  destruct missing as [|p l]; [done|]. unfold check_events.
  change (queues_made ((EvCheckAdd <$> p :: l) ++ [EvCheckWatch; EvCheckWait])
          = []).
  by rewrite queues_made_app, queues_made_check_adds.
Qed.

Lemma skips_skips (sizes : list Z) : skips (EvSkip <$> sizes) = sizes.
Proof. induction sizes as [|z l IH]; [done|]. cbn. f_equal. exact IH. Qed.

Lemma queues_made_skips (sizes : list Z) : queues_made (EvSkip <$> sizes) = [].
Proof. induction sizes as [|z l IH]; [done|]. exact IH. Qed.

Lemma sum_sizes_split l :
  sum_sizes l = sum_sizes (present l) + sum_sizes (absent l).
Proof.
  unfold present, absent. induction l as [|p l IH]; [done|].
  rewrite !filter_cons. simpl.
  destruct (in_local_cache (Oid p) (Size p)); simpl; lia.
Qed.

End Readers.

(** * The claims *)

(** C1. Claim: in a real-mode upload every distinct object id is processed
    at most once per batch; a second occurrence of an id in the same list
    adds nothing to [objectCount] or [totalSize] and is not enqueued again.
    The code does otherwise: [prepareUpload] consults the set, which is
    only extended after a unit has been enqueued, so two new pointers with
    the oid [A] are both counted (2 objects, 2048 bytes), the queue is made
    for both, and [A] is passed to [Add] twice; the dry-run path of the
    same function announces [A] once. *)
Theorem C1_repeated_oid_is_counted_and_enqueued_twice :
  let l := [Scenario.blob_a; Scenario.blob_a_again] in
  (∃ st, result (classify (H:=Scenario.smooth) l (newUploadContext false))
         = Returned st
         ∧ numObjects st = 2 ∧ totalSize st = 2048)
  ∧ queues_made (events (upload (H:=Scenario.smooth) l (newUploadContext false)))
    = [(2, 2048, false)]
  ∧ events (upload (H:=Scenario.smooth) l (newUploadContext false))
    = [ EvObjectExistsOfSize "A" 1024; EvObjectExistsOfSize "A" 1024;
        EvNewUploadQueue 2 2048 false;
        EvNewUploadable "A" "a.bin";
        EvAdd (H:=Scenario.smooth) ("A", "a.bin");
        EvNewUploadable "A" "copy-of-a.bin";
        EvAdd (H:=Scenario.smooth) ("A", "copy-of-a.bin");
        EvQueueWait ]
  ∧ added_oids (events (upload (H:=Scenario.smooth) l (newUploadContext false)))
    = ["A"; "A"]
  ∧ events (upload (H:=Scenario.smooth) l (newUploadContext true))
    = [EvPrint "push A => a.bin"].
Proof.
  cbv zeta. split_and!.
  - eexists. split_and!; [vm_compute; reflexivity | reflexivity | reflexivity].
  - vm_compute. reflexivity.
  - vm_compute. reflexivity.
  - vm_compute. reflexivity.
  - vm_compute. reflexivity.
Qed.

(** C2. [checkMissing] returns, and then [HasUploaded] holds of every oid
    that the confirmation stream carried, an oid that it holds of was
    either carried by the stream or already in the set, the set is the
    old one united with the confirmed oids, and so the oids that
    [checkMissing] added are exactly the confirmed ones that were new:
    all of them, when none was in the set before, as is the case for the
    oids of the pointers that [prepareUpload] passes. *)
Theorem C2_checkMissing_marks_exactly_the_confirmed `{Env}
    (missing : list WrappedPointer) (missingSize : Z) (c : uploadContext) :
  let c' := context (checkMissing missing missingSize c) in
  result (checkMissing missing missingSize c) = Returned tt
  ∧ (∀ oid, oid ∈ confirmed missing → result (HasUploaded oid c') = Returned true)
  ∧ (∀ oid, result (HasUploaded oid c') = Returned true →
            oid ∈ confirmed missing ∨ result (HasUploaded oid c) = Returned true)
  ∧ uploadedOids c' = list_to_set (confirmed missing) ∪ uploadedOids c
  ∧ uploadedOids c' ∖ uploadedOids c
    = list_to_set (confirmed missing) ∖ uploadedOids c
  ∧ ((∀ oid, oid ∈ confirmed missing → oid ∉ uploadedOids c) →
     uploadedOids c' ∖ uploadedOids c = list_to_set (confirmed missing)).
Proof.
  cbv zeta. rewrite checkMissing_run. cbn [result context reconciled].
  unfold HasUploaded. cbn [result uploadedOids]. split_and!.
  - done.
  - intros oid Hoid. f_equal. apply bool_decide_eq_true_2. set_solver.
  - intros oid Hoid. injection Hoid as Hoid. apply bool_decide_eq_true_1 in Hoid.
    apply elem_of_union in Hoid as [Hoid|Hoid].
    + left. by apply elem_of_list_to_set in Hoid.
    + right. f_equal. by apply bool_decide_eq_true_2.
  - done.
  - set_solver.
  - intros Hnew. set_solver.
Qed.

(** C3. [checkMissing] is back in [prepareUpload] only in states in which
    the check queue has sent everything and closed the channel, the
    collector has received and marked every oid of the stream and has
    finished, and no task can take a step any more; the set is then the
    one in which [prepareUpload] runs its skip-or-upload loop. Holds of
    every interleaving of the caller, the collector and the queue. *)
Theorem C3_checkMissing_barrier `{Env}
    (missing : list WrappedPointer) (missingSize : Z) (c : uploadContext)
    (s : Barrier.state) :
  missing ≠ [] →
  Barrier.reachable (uploadedOids c) (confirmations missing) s →
  Barrier.main s = Barrier.HasReturned →
  s = Barrier.finished (uploadedOids c) (confirmations missing)
  ∧ Barrier.pending s = []
  ∧ Barrier.closed s = true
  ∧ Barrier.transferc s = []
  ∧ Barrier.collector s = Barrier.Finished
  ∧ (∀ oid, oid ∈ confirmations missing → oid ∈ Barrier.oids s)
  ∧ Barrier.oids s = uploadedOids (context (checkMissing missing missingSize c))
  ∧ (∀ s', ¬ Barrier.step s s').
Proof.
  intros Hmissing Hreach Hmain.
  pose proof (invariant_reachable _ _ _ Hreach) as Hinv.
  assert (∀ s', ¬ Barrier.step s s') as Hfinal
    by (intros s'; by eapply returned_is_final).
  rewrite (returned_is_finished _ _ s Hinv Hmain) in *.
  rewrite checkMissing_run. cbn [context reconciled uploadedOids].
  destruct missing as [|p l]; [done|]. cbn [confirmed].
  unfold Barrier.finished. simpl. split_and!; try done.
  intros oid Hoid. set_solver.
Qed.

(** C3, witness: [B] is missing, the remote confirms it, and the run in
    which it is sent, received and marked ends with the caller back. *)
Lemma C3_checkMissing_barrier_witness :
  let s := Barrier.finished ∅ ["B"] in
  s = Barrier.finished ∅ ["B"]
  ∧ Barrier.pending s = []
  ∧ Barrier.closed s = true
  ∧ Barrier.transferc s = []
  ∧ Barrier.collector s = Barrier.Finished
  ∧ (∀ oid, oid ∈ ["B"] → oid ∈ Barrier.oids s)
  ∧ Barrier.oids s
    = uploadedOids (context (checkMissing (H:=Scenario.smooth)
                               [Scenario.blob_b] 2048 (newUploadContext false)))
  ∧ (∀ s', ¬ Barrier.step s s').
Proof.
  apply (C3_checkMissing_barrier (H:=Scenario.smooth)
           [Scenario.blob_b] 2048 (newUploadContext false)
           (Barrier.finished ∅ ["B"])).
  - discriminate.
  - apply barrier_passable.
  - reflexivity.
Defined.

(** C4. [prepareUpload] calls [Skip] once, with the size of the object, for
    every locally missing pointer whose oid is in the set after
    [checkMissing], in order, and for nothing else; such a pointer is not
    in the list it returns; that list is the locally present pointers
    followed by the locally missing ones whose oid is not in the set. *)
Theorem C4_skip_accounting `{Env} (l : list WrappedPointer) (c : uploadContext) :
  let missing := absent (counted c l) in
  let c' := context (checkMissing missing (Int64.wrap (sum_sizes missing)) c) in
  let skipped := filter (λ p, Oid p ∈ uploadedOids c') missing in
  let kept := filter (λ p, Oid p ∉ uploadedOids c') missing in
  ∃ q, result (prepareUpload l c) = Returned (q, present (counted c l) ++ kept)
       ∧ context (prepareUpload l c) = c'
       ∧ skips (events (prepareUpload l c)) = Size <$> skipped
       ∧ q_skipped q = Size <$> skipped
       ∧ (∀ p, p ∈ skipped → p ∉ present (counted c l) ++ kept).
Proof.
  cbv zeta. rewrite checkMissing_run. cbn [context].
  pose proof (prepareUpload_run l c) as Hrun. cbv zeta in Hrun.
  rewrite Hrun. cbn [result context events]. eexists. split_and!.
  - reflexivity.
  - reflexivity.
  - rewrite !skips_app, skips_queries, skips_check_events, skips_skips. done.
  - reflexivity.
  - intros p [Hin Hmiss]%list_elem_of_filter.
    intros [Hpres|Hkept]%elem_of_app.
    + unfold present, absent in *.
      apply list_elem_of_filter in Hpres as [Hex _].
      apply list_elem_of_filter in Hmiss as [Hno _]. done.
    + apply list_elem_of_filter in Hkept as [Hout _]. done.
Qed.

(** C5, counterexample. [A] (1 byte) is in the local cache and [B]
    (2^63 - 1 bytes) is not: the sizes add up to 2^63, the [int64] total
    wraps around to -2^63, and [missingSize] is above [totalSize]. *)
Lemma C5_totals_wrap_around :
  let l := [Scenario.tiny_a; Scenario.huge_b] in
  let c := newUploadContext false in
  ∃ st, result (classify (H:=Scenario.smooth) l c) = Returned st
        ∧ sum_sizes (counted c l) = 2 ^ 63
        ∧ totalSize st = - 2 ^ 63
        ∧ missingSize st = 2 ^ 63 - 1
        ∧ totalSize st ≠ sum_sizes (counted c l)
        ∧ ¬ (missingSize st ≤ totalSize st).
Proof.
  cbv zeta. eexists. split_and!.
  - vm_compute. reflexivity.
  - vm_compute. reflexivity.
  - reflexivity.
  - reflexivity.
  - vm_compute. discriminate.
  - vm_compute. intros Hle. by apply Hle.
Qed.

(** C5, amended. When no counted candidate has a negative size and the
    sizes of the counted candidates add up to at most 2^63 - 1, the
    [totalSize] of the classification is the sum of the sizes of the
    candidates that were not skipped as already handled, the locally
    missing ones included, [missingSize] is the sum over the locally
    missing ones and at most [totalSize], and [prepareUpload] makes one
    transfer queue, with exactly that [numObjects] and [totalSize]. *)
Theorem C5_totals `{Env} (l : list WrappedPointer) (c : uploadContext) :
  Forall (λ p, 0 ≤ Size p) (counted c l) →
  sum_sizes (counted c l) ≤ Int64.max_int →
  ∃ st q ups,
    result (classify l c) = Returned st
    ∧ numObjects st = Z.of_nat (length (counted c l))
    ∧ totalSize st = sum_sizes (counted c l)
    ∧ totalSize st
      = sum_sizes (uploadables st) + sum_sizes (missingLocalObjects st)
    ∧ missingSize st = sum_sizes (missingLocalObjects st)
    ∧ 0 ≤ missingSize st ≤ totalSize st
    ∧ result (prepareUpload l c) = Returned (q, ups)
    ∧ q_numObjects q = numObjects st
    ∧ q_totalSize q = totalSize st
    ∧ queues_made (events (prepareUpload l c))
      = [(numObjects st, totalSize st, DryRun c)].
Proof.
  intros Hpos Hmax.
  pose proof (prepareUpload_run l c) as Hrun. cbv zeta in Hrun.
  rewrite classify_run, Hrun. cbn [result events].
  set (F := counted c l) in *.
  assert (0 ≤ sum_sizes F) as HF by (by apply sum_sizes_nonneg).
  assert (Forall (λ p, 0 ≤ Size p) (absent F)) as Hpos'.
  { apply Forall_forall. intros p [_ Hp]%list_elem_of_filter.
    by apply (proj1 (Forall_forall _ _) Hpos). }
  assert (0 ≤ sum_sizes (absent F)) as HM by (by apply sum_sizes_nonneg).
  assert (sum_sizes (absent F) ≤ sum_sizes F) as HMF
    by (by apply sum_sizes_filter_le).
  assert (Int64.wrap (sum_sizes F) = sum_sizes F) as HwF.
  { apply wrap_in_range. unfold Int64.in_range, Int64.min_int, Int64.max_int in *.
    lia. }
  assert (Int64.wrap (sum_sizes (absent F)) = sum_sizes (absent F)) as HwM.
  { apply wrap_in_range. unfold Int64.in_range, Int64.min_int, Int64.max_int in *.
    lia. }
  eexists _, _, _. split_and!; try reflexivity;
    cbn [numObjects totalSize missingSize uploadables missingLocalObjects
         q_numObjects q_totalSize].
  - exact HwF.
  - rewrite HwF. apply sum_sizes_split.
  - exact HwM.
  - rewrite HwM. lia.
  - rewrite HwM, HwF. lia.
  - rewrite !queues_made_app, queues_made_queries, queues_made_check_events,
      queues_made_skips. reflexivity.
Qed.

(** C5, witness: [A] (1024 bytes, present) and [B] (2048 bytes, missing). *)
Lemma C5_totals_witness :
  ∃ st q ups,
    result (classify (H:=Scenario.smooth)
              [Scenario.blob_a; Scenario.blob_b] (newUploadContext false))
    = Returned st
    ∧ numObjects st = 2
    ∧ totalSize st = 3072
    ∧ totalSize st
      = sum_sizes (uploadables st) + sum_sizes (missingLocalObjects st)
    ∧ missingSize st = sum_sizes (missingLocalObjects st)
    ∧ 0 ≤ missingSize st ≤ totalSize st
    ∧ result (prepareUpload (H:=Scenario.smooth)
                [Scenario.blob_a; Scenario.blob_b] (newUploadContext false))
      = Returned (q, ups)
    ∧ q_numObjects q = numObjects st
    ∧ q_totalSize q = totalSize st
    ∧ queues_made (events (prepareUpload (H:=Scenario.smooth)
                             [Scenario.blob_a; Scenario.blob_b]
                             (newUploadContext false)))
      = [(numObjects st, totalSize st, false)].
Proof.
  apply (C5_totals (H:=Scenario.smooth)
           [Scenario.blob_a; Scenario.blob_b] (newUploadContext false)).
  - vm_compute. repeat constructor; discriminate.
  - vm_compute. discriminate.
Defined.

(** C6. A dry-run [upload] returns, and all it does is print: its events
    are the lines [push <oid> => <name>] of the pointers that come with
    an oid not yet handled at their turn, in order: one line for every
    oid of the input that was not in the set, none for an oid that was.
    No event is a call to the local cache, the check queue, the transfer
    queue or [lfs.NewUploadable]. Afterwards the set holds the oids of
    the input as well. *)
Theorem C6_dry_run_only_prints `{Env} (l : list WrappedPointer) (c : uploadContext) :
  DryRun c = true →
  let told := announced (uploadedOids c) l in
  result (upload l c) = Returned tt
  ∧ events (upload l c) = (λ p, EvPrint (push_line p)) <$> told
  ∧ Forall (λ e, ∃ line, e = EvPrint line) (events (upload l c))
  ∧ sublist told l
  ∧ NoDup (Oid <$> told)
  ∧ (∀ p, p ∈ l → Oid p ∉ uploadedOids c → Oid p ∈ Oid <$> told)
  ∧ (∀ p, p ∈ told → Oid p ∉ uploadedOids c)
  ∧ DryRun (context (upload l c)) = true
  ∧ uploadedOids (context (upload l c))
    = list_to_set (Oid <$> l) ∪ uploadedOids c.
Proof.
  intros Hdry told. rewrite upload_dry by done. rewrite dry_run_from.
  cbn [result context events DryRun uploadedOids]. split_and!; try done.
  - apply Forall_fmap, Forall_true. intros p. simpl. by eexists.
  - apply announced_sublist.
  - apply announced_NoDup.
  - intros p. apply announced_covers.
  - intros p. apply announced_fresh.
Qed.

(** C6, witness: [A] twice and [B] once, on a fresh dry-run context. *)
Lemma C6_dry_run_only_prints_witness :
  let l := [Scenario.blob_a; Scenario.blob_a_again; Scenario.blob_b] in
  let c := newUploadContext true in
  let told := announced (uploadedOids c) l in
  result (upload (H:=Scenario.smooth) l c) = Returned tt
  ∧ events (upload (H:=Scenario.smooth) l c)
    = (λ p, EvPrint (push_line p)) <$> told
  ∧ Forall (λ e, ∃ line, e = EvPrint line) (events (upload (H:=Scenario.smooth) l c))
  ∧ sublist told l
  ∧ NoDup (Oid <$> told)
  ∧ (∀ p, p ∈ l → Oid p ∉ uploadedOids c → Oid p ∈ Oid <$> told)
  ∧ (∀ p, p ∈ told → Oid p ∉ uploadedOids c)
  ∧ DryRun (context (upload (H:=Scenario.smooth) l c)) = true
  ∧ uploadedOids (context (upload (H:=Scenario.smooth) l c))
    = list_to_set (Oid <$> l) ∪ uploadedOids c.
Proof.
  apply (C6_dry_run_only_prints (H:=Scenario.smooth)
           [Scenario.blob_a; Scenario.blob_a_again; Scenario.blob_b]
           (newUploadContext true)).
  reflexivity.
Defined.

(** C7, counterexample. [A] is in the local cache; [B] is not, the remote
    does not confirm it, and the content found for [b.bin] hashes to [C].
    The upload ends with the line of [uploadMissingErr], which names the
    directory [.git/lfs/objects]; the line with the words "the local
    object cache" is not among its events. *)
Lemma C7_diagnostic_names_git_lfs_objects :
  let r := upload (H:=Scenario.mismatch)
             [Scenario.blob_a; Scenario.blob_b] (newUploadContext false) in
  result r = Halted Aborted
  ∧ last (events r)
    = Some (EvExit
        "B does not exist in .git/lfs/objects. Tried b.bin, which matches C.")
  ∧ EvExit
      "B does not exist in the local object cache. Tried b.bin, which matches C."
    ∉ events r.
Proof.
  cbv zeta. split_and!.
  - vm_compute. reflexivity.
  - vm_compute. reflexivity.
  - intros Hin. apply list_elem_of_In in Hin. vm_compute in Hin.
    repeat (destruct Hin as [Hin|Hin]; [discriminate Hin|]). exact Hin.
Qed.

(** C7, amended. In real mode, when [lfs.NewUploadable] fails for a
    pointer of the working list and succeeded for the ones before it,
    [upload] ends the process at once: after the events of
    [prepareUpload] and the enqueuing of the earlier pointers come the
    failed call and the exit, and nothing else, so no later pointer is
    materialized or enqueued. For a clean-pointer error the exit line is
    "<oid> does not exist in .git/lfs/objects. Tried <name>, which matches
    <actual>.", where <actual> is the oid of the error's pointer; for any
    other error the exit carries the error itself. *)
Theorem C7_materialization_failure_aborts `{Env}
    (l : list WrappedPointer) (c : uploadContext)
    (q0 : TransferQueue Uploadable) (pre post : list WrappedPointer)
    (p : WrappedPointer) (err : lfs_error) :
  DryRun c = false →
  result (prepareUpload l c) = Returned (q0, pre ++ p :: post) →
  Forall materializes pre →
  materialized (Oid p) (Name p) = inr err →
  ∃ last_event,
    result (upload l c) = Halted Aborted
    ∧ events (upload l c)
      = events (prepareUpload l c)
        ++ concat (enqueued <$> pre)
        ++ [EvNewUploadable (Oid p) (Name p); last_event]
    ∧ (∀ actual, err_clean_pointer err = Some actual →
         last_event
         = EvExit (Oid p +:+ " does not exist in .git/lfs/objects. Tried "
                   +:+ Name p +:+ ", which matches " +:+ actual +:+ "."))
    ∧ (IsCleanPointerError err = false → last_event = EvExitWithError err).
Proof.
  intros Hreal Hprep Hpre Herr. exists (abort_event p err).
  rewrite (upload_real_aborts l c q0 pre p post err) by done.
  cbn [result events]. split_and!; try done.
  - intros actual Hactual. unfold abort_event. by rewrite Hactual.
  - unfold abort_event, IsCleanPointerError.
    by destruct (err_clean_pointer err).
Qed.

(** C7, witness: the run of the counterexample. *)
Lemma C7_materialization_failure_aborts_witness :
  let r := upload (H:=Scenario.mismatch)
             [Scenario.blob_a; Scenario.blob_b] (newUploadContext false) in
  ∃ last_event,
    result r = Halted Aborted
    ∧ events r
      = events (prepareUpload (H:=Scenario.mismatch)
                  [Scenario.blob_a; Scenario.blob_b] (newUploadContext false))
        ++ concat (enqueued (H:=Scenario.mismatch) <$> [Scenario.blob_a])
        ++ [EvNewUploadable "B" "b.bin"; last_event]
    ∧ (∀ actual, Some "C" = Some actual →
         last_event
         = EvExit ("B" +:+ " does not exist in .git/lfs/objects. Tried "
                   +:+ "b.bin" +:+ ", which matches " +:+ actual +:+ "."))
    ∧ (IsCleanPointerError Scenario.mismatch_error = false →
       last_event = EvExitWithError Scenario.mismatch_error).
Proof.
  apply (C7_materialization_failure_aborts (H:=Scenario.mismatch)
           [Scenario.blob_a; Scenario.blob_b] (newUploadContext false)
           {| q_numObjects := 2; q_totalSize := 3072; q_dryRun := false;
              q_skipped := []; q_added := [] |}
           [Scenario.blob_a] [] Scenario.blob_b Scenario.mismatch_error).
  - reflexivity.
  - vm_compute. reflexivity.
  - repeat constructor. by eexists.
  - reflexivity.
Defined.

(** C8, counterexample. With [Debugging] set, an error that is not fatal
    and has the inner cause [timeout] is passed to [LoggedError] with its
    own message; neither the inner cause nor the message is passed to
    [Error]. The claim has every non-fatal error report its inner cause
    and then its message. *)
Lemma C8_debugging_logs_plain_errors :
  let r := upload (H:=Scenario.verbose) [Scenario.blob_a] (newUploadContext false) in
  @transfer_errors Scenario.verbose
    {| q_numObjects := 1; q_totalSize := 1024; q_dryRun := false;
       q_skipped := []; q_added := [("A", "a.bin")] |}
  = [Scenario.timeout_error]
  ∧ IsFatalError Scenario.timeout_error = false
  ∧ GetInnerError Scenario.timeout_error = Some "timeout"
  ∧ result r = Halted (ExitStatus 2)
  ∧ EvLoggedError Scenario.timeout_error "transfer failed" ∈ events r
  ∧ (EvError "timeout" ∉ events r)
  ∧ (EvError "transfer failed" ∉ events r).
Proof.
  cbv zeta. split_and!; try reflexivity.
  - apply list_elem_of_In. vm_compute. tauto.
  - intros Hin. apply list_elem_of_In in Hin. vm_compute in Hin.
    repeat (destruct Hin as [Hin|Hin]; [discriminate Hin|]). exact Hin.
  - intros Hin. apply list_elem_of_In in Hin. vm_compute in Hin.
    repeat (destruct Hin as [Hin|Hin]; [discriminate Hin|]). exact Hin.
Qed.

(** C8, amended. In real mode, when every unit of the working list could
    be made, [upload] waits for the queue and then reports every error of
    [q.Errors()], in order and without stopping: an error that is fatal,
    or any error when [Debugging] is set, is passed to [LoggedError]; any
    other error has its inner cause, if it has one, and then its own
    message passed to [Error]. If there was an error the process then
    exits with status 2, and only then; without errors [upload]
    returns. *)
Theorem C8_errors_are_drained `{Env}
    (l : list WrappedPointer) (c : uploadContext)
    (q0 : TransferQueue Uploadable) (pointers : list WrappedPointer) :
  DryRun c = false →
  result (prepareUpload l c) = Returned (q0, pointers) →
  Forall materializes pointers →
  let q := {| q_numObjects := q_numObjects q0; q_totalSize := q_totalSize q0;
              q_dryRun := q_dryRun q0; q_skipped := q_skipped q0;
              q_added := q_added q0 ++ omap unit_of pointers |} in
  let errs := transfer_errors q in
  events (upload l c)
  = events (prepareUpload l c)
    ++ concat (enqueued <$> pointers)
    ++ [EvQueueWait]
    ++ concat (reported <$> errs)
    ++ match errs with [] => [] | _ :: _ => [EvOsExit 2] end
  ∧ (∀ e, e ∈ errs → Debugging || err_fatal e = true →
       reported e = [EvLoggedError e (err_message e)])
  ∧ (∀ e, e ∈ errs → Debugging || err_fatal e = false →
       reported e
       = match err_inner e with
         | Some inner => [EvError inner; EvError (err_message e)]
         | None => [EvError (err_message e)]
         end)
  ∧ (result (upload l c) = Halted (ExitStatus 2) ↔ errs ≠ [])
  ∧ (errs = [] → result (upload l c) = Returned tt).
Proof.
  intros Hreal Hprep Hmat q errs.
  rewrite (upload_real_drains l c q0 pointers) by done.
  fold q. fold errs. cbn [result events]. split_and!.
  - done.
  - intros e _ He. unfold reported. by rewrite He.
  - intros e _ He. unfold reported. by rewrite He.
  - destruct errs; split; done.
  - by intros ->.
Qed.

(** C8, witness: [A] is uploaded and the queue reports a plain error
    with an inner cause and a fatal one. *)
Lemma C8_errors_are_drained_witness :
  let r := upload (H:=Scenario.flaky) [Scenario.blob_a] (newUploadContext false) in
  let errs := [Scenario.timeout_error; Scenario.fatal_error] in
  events r
  = events (prepareUpload (H:=Scenario.flaky)
              [Scenario.blob_a] (newUploadContext false))
    ++ concat (enqueued (H:=Scenario.flaky) <$> [Scenario.blob_a])
    ++ [EvQueueWait]
    ++ concat (reported (H:=Scenario.flaky) <$> errs)
    ++ [EvOsExit 2]
  ∧ (∀ e, e ∈ errs → false || err_fatal e = true →
       reported (H:=Scenario.flaky) e = [EvLoggedError e (err_message e)])
  ∧ (∀ e, e ∈ errs → false || err_fatal e = false →
       reported (H:=Scenario.flaky) e
       = match err_inner e with
         | Some inner => [EvError inner; EvError (err_message e)]
         | None => [EvError (err_message e)]
         end)
  ∧ (result r = Halted (ExitStatus 2) ↔ errs ≠ [])
  ∧ (errs = [] → result r = Returned tt).
Proof.
  apply (C8_errors_are_drained (H:=Scenario.flaky)
           [Scenario.blob_a] (newUploadContext false)
           {| q_numObjects := 1; q_totalSize := 1024; q_dryRun := false;
              q_skipped := []; q_added := [] |}
           [Scenario.blob_a]).
  - reflexivity.
  - vm_compute. reflexivity.
  - repeat constructor. by eexists.
Defined.

(** C9. No operation of the core removes an oid from [uploadedOids]:
    after [SetUploaded], [HasUploaded], the classification,
    [checkMissing], [prepareUpload] and [upload] in either mode the set
    contains what it contained before, and so it does after any sequence
    of them; once [HasUploaded] answers true for an oid it keeps doing so.
    The same holds of every step of the tasks inside [checkMissing]. *)
Theorem C9_dedup_set_is_monotone `{Env} (c : uploadContext) :
  (∀ o, uploadedOids c ⊆ uploadedOids (perform c o))
  ∧ (∀ ops, uploadedOids c ⊆ uploadedOids (session c ops))
  ∧ (∀ ops oid, result (HasUploaded oid c) = Returned true →
                result (HasUploaded oid (session c ops)) = Returned true)
  ∧ (∀ s s', Barrier.step s s' → Barrier.oids s ⊆ Barrier.oids s').
Proof.
  split_and!.
  - apply perform_grows.
  - intros ops. apply session_grows.
  - intros ops oid Hhas. unfold HasUploaded in *. cbn [result] in *.
    injection Hhas as Hhas. apply bool_decide_eq_true_1 in Hhas.
    f_equal. apply bool_decide_eq_true_2. by apply (session_grows ops c).
  - apply barrier_step_grows.
Qed.

(** C10. After a dry-run [upload] of a list, every oid of the list is in
    the set, and a second dry-run [upload] of the same list, or of a
    sublist of it, on that context prints nothing and leaves the context
    as it is. *)
Theorem C10_dry_run_twice `{Env} (L L' : list WrappedPointer) (c : uploadContext) :
  DryRun c = true →
  sublist L' L →
  let c1 := context (upload L c) in
  (∀ p, p ∈ L → Oid p ∈ uploadedOids c1)
  ∧ result (upload L' c1) = Returned tt
  ∧ events (upload L' c1) = []
  ∧ context (upload L' c1) = c1.
Proof.
  intros Hdry Hsub c1.
  assert (c1 = {| DryRun := true;
                  uploadedOids := list_to_set (Oid <$> L) ∪ uploadedOids c |})
    as Hc1.
  { unfold c1. rewrite upload_dry by done. rewrite dry_run_from.
    cbn [context]. by rewrite Hdry. }
  assert (∀ p, p ∈ L → Oid p ∈ uploadedOids c1) as Hall.
  { intros p Hp. rewrite Hc1. cbn [uploadedOids].
    apply elem_of_union_l, elem_of_list_to_set, list_elem_of_fmap. eauto. }
  assert (∀ p, p ∈ L' → Oid p ∈ uploadedOids c1) as Hall'.
  { intros p Hp. apply Hall. by eapply elem_of_sublist. }
  split; [exact Hall|].
  rewrite upload_dry by (by rewrite Hc1). rewrite dry_run_from.
  cbn [result context events]. split_and!.
  - done.
  - by rewrite announced_all_seen.
  - rewrite Hc1 in *. cbn [DryRun uploadedOids] in *. f_equal.
    apply set_eq. intros oid. rewrite elem_of_union. split; [|by right].
    intros [Hoid|Hoid]; [|done].
    apply elem_of_list_to_set, list_elem_of_fmap in Hoid as (p & -> & Hp).
    by apply Hall'.
Qed.

(** C10, witness: [A], [A] again and [B], then [A] and [B] once more. *)
Lemma C10_dry_run_twice_witness :
  let L := [Scenario.blob_a; Scenario.blob_a_again; Scenario.blob_b] in
  let L' := [Scenario.blob_a; Scenario.blob_b] in
  let c1 := context (upload (H:=Scenario.smooth) L (newUploadContext true)) in
  (∀ p, p ∈ L → Oid p ∈ uploadedOids c1)
  ∧ result (upload (H:=Scenario.smooth) L' c1) = Returned tt
  ∧ events (upload (H:=Scenario.smooth) L' c1) = []
  ∧ context (upload (H:=Scenario.smooth) L' c1) = c1.
Proof.
  apply (C10_dry_run_twice (H:=Scenario.smooth)
           [Scenario.blob_a; Scenario.blob_a_again; Scenario.blob_b]
           [Scenario.blob_a; Scenario.blob_b] (newUploadContext true)).
  - reflexivity.
  - apply sublist_skip, sublist_cons, sublist_skip, sublist_nil.
Defined.

(** * Further properties *)

(** ** Stages of the events *)

Section Stages.
Context `{Env}.

Lemma stage_queries (l : list WrappedPointer) :
  Forall (λ e, stage e = 1%nat)
         ((λ p, EvObjectExistsOfSize (Oid p) (Size p)) <$> l).
Proof. apply Forall_fmap, Forall_true. done. Qed.

Lemma stage_check_events missing size :
  Forall (λ e, stage e = 2%nat) (check_events missing size).
Proof.
  destruct missing as [|p l]; [constructor|]. unfold check_events.
  constructor; [done|]. apply Forall_app. split.
  - apply Forall_fmap, Forall_true. done.
  - repeat constructor.
Qed.

Lemma stage_skips (sizes : list Z) :
  Forall (λ e, stage e = 4%nat) (EvSkip <$> sizes).
Proof. apply Forall_fmap, Forall_true. done. Qed.

Lemma stage_enqueued (ps : list WrappedPointer) :
  Forall (λ e, stage e = 5%nat) (concat (enqueued <$> ps)).
Proof.
  induction ps as [|p ps IH]; [constructor|].
  rewrite fmap_cons. cbn [concat]. apply Forall_app. split; [|done].
  unfold enqueued. destruct (materialized (Oid p) (Name p));
    repeat constructor.
Qed.

Lemma stage_reported (errs : list lfs_error) :
  Forall (λ e, stage e = 7%nat) (concat (reported <$> errs)).
Proof.
  induction errs as [|err errs IH]; [constructor|].
  rewrite fmap_cons. cbn [concat]. apply Forall_app. split; [|done].
  unfold reported. destruct (Debugging || err_fatal err);
    [|destruct (err_inner err)]; repeat constructor.
Qed.

(** A reader that ignores a stage finds nothing in events of that stage. *)
Lemma omap_stage_nil {B} (f : event → option B) n evs :
  Forall (λ e, stage e = n) evs →
  (∀ e, stage e = n → f e = None) →
  omap f evs = [].
Proof.
  intros Hevs Hf. induction Hevs as [|e evs He _ IH]; [done|].
  cbn. by rewrite (Hf e He).
Qed.

Lemma from_stage_nil n : from_stage n [].
Proof. split; constructor. Qed.

(** Events of one stage, followed by events of later stages. *)
Lemma from_stage_app n m evs1 evs2 :
  Forall (λ e, stage e = n) evs1 → from_stage m evs2 → (n ≤ m)%nat →
  from_stage n (evs1 ++ evs2).
Proof.
  intros H1 [H2 Hsorted] Hnm. split.
  - apply Forall_app. split.
    + eapply Forall_impl; [exact H1|]. simpl. intros e ->. done.
    + eapply Forall_impl; [exact H2|]. simpl. intros e He. lia.
  - unfold in_order in *. rewrite fmap_app. apply StronglySorted_app_2.
    + intros x1 x2 (e1 & -> & He1)%list_elem_of_fmap
                   (e2 & -> & He2)%list_elem_of_fmap.
      rewrite (proj1 (Forall_forall _ _) H1 e1 He1).
      pose proof (proj1 (Forall_forall _ _) H2 e2 He2). simpl in *. lia.
    + clear Hsorted H2. induction H1 as [|e evs He Hevs IH]; [constructor|].
      rewrite fmap_cons. constructor; [exact IH|].
      apply Forall_fmap. eapply Forall_impl; [exact Hevs|].
      simpl. intros e' He'. lia.
    + done.
Qed.

Lemma from_stage_cons n m e evs :
  stage e = n → from_stage m evs → (n ≤ m)%nat → from_stage n (e :: evs).
Proof.
  intros He Hevs Hnm. apply (from_stage_app n m [e] evs); [|done..].
  by constructor.
Qed.

(** The events of [prepareUpload], stage by stage. *)
Lemma prepareUpload_events l c :
  let F := counted c l in
  let M := absent F in
  events (prepareUpload l c) =
    ((λ p, EvObjectExistsOfSize (Oid p) (Size p)) <$> F)
    ++ check_events M (Int64.wrap (sum_sizes M))
    ++ [EvNewUploadQueue (Z.of_nat (length F)) (Int64.wrap (sum_sizes F))
                         (DryRun c)]
    ++ (EvSkip <$> (Size <$> filter (λ p, Oid p ∈ uploadedOids (reconciled c M)) M)).
Proof.
  intros F M. pose proof (prepareUpload_run l c) as Hrun. cbv zeta in Hrun.
  by rewrite Hrun.
Qed.

Lemma prepareUpload_from_stage l c rest :
  from_stage 5 rest → from_stage 1 (events (prepareUpload l c) ++ rest).
Proof.
  intros Hrest. rewrite prepareUpload_events.
  rewrite <- !(assoc_L (++)).
  apply (from_stage_app 1 2); [apply stage_queries| |lia].
  apply (from_stage_app 2 3); [apply stage_check_events| |lia].
  apply (from_stage_cons 3 4); [done| |lia].
  apply (from_stage_app 4 5); [apply stage_skips| |lia].
  exact Hrest.
Qed.

(** Either every pointer of a list can be made into a unit, or there is
    a first one that cannot. *)
Lemma materializes_or_fails (ps : list WrappedPointer) :
  Forall materializes ps
  ∨ ∃ pre p post err,
      ps = pre ++ p :: post ∧ Forall materializes pre
      ∧ materialized (Oid p) (Name p) = inr err.
Proof.
  induction ps as [|p ps IH]; [left; constructor|].
  destruct (materialized (Oid p) (Name p)) as [u|err] eqn:Hp.
  - destruct IH as [Hall|(pre & p' & post & err & -> & Hpre & Herr)].
    + left. constructor; [by exists u|done].
    + right. exists (p :: pre), p', post, err. split_and!; [done| |done].
      constructor; [by exists u|done].
  - right. exists [], p, ps, err. split_and!; [done|constructor|done].
Qed.

Lemma materializes_not_both pre p post err :
  materialized (Oid p) (Name p) = inr err →
  ¬ Forall materializes (pre ++ p :: post).
Proof.
  intros Herr Hall. apply Forall_app in Hall as [_ Hall].
  apply Forall_cons in Hall as [[u Hu] _]. congruence.
Qed.

(** What [prepareUpload] returns, always. *)
Lemma prepareUpload_result l c :
  ∃ q0 ups, result (prepareUpload l c) = Returned (q0, ups).
Proof.
  pose proof (prepareUpload_run l c) as Hrun. cbv zeta in Hrun.
  rewrite Hrun. by eexists _, _.
Qed.

End Stages.

(** ** Sums, lengths and duplicates *)

Lemma sum_sizes_filter_split (P : WrappedPointer → Prop)
    `{∀ p, Decision (P p)} (l : list WrappedPointer) :
  sum_sizes l = sum_sizes (filter P l) + sum_sizes (filter (λ p, ¬ P p) l).
Proof.
  induction l as [|p l IH]; [done|]. rewrite !filter_cons. simpl.
  destruct (decide (P p)) as [Hp|Hp].
  - rewrite decide_False by (intros Hn; by apply Hn). simpl. lia.
  - rewrite decide_True by done. simpl. lia.
Qed.

Lemma length_filter_split {A} (P : A → Prop) `{∀ x, Decision (P x)} (l : list A) :
  length l = (length (filter P l) + length (filter (λ x, ¬ P x) l))%nat.
Proof.
  rewrite <- length_app. symmetry. apply Permutation_length.
  apply filter_app_complement.
Qed.

Lemma filter_ext_elem {A} (P Q : A → Prop)
    `{∀ x, Decision (P x)} `{∀ x, Decision (Q x)} (l : list A) :
  (∀ x, x ∈ l → P x ↔ Q x) → filter P l = filter Q l.
Proof.
  induction l as [|x l IH]; intros HPQ; [done|]. rewrite !filter_cons.
  assert (filter P l = filter Q l) as ->.
  { apply IH. intros y Hy. apply HPQ. by apply elem_of_cons; right. }
  pose proof (HPQ x (proj2 (elem_of_cons _ _ _) (or_introl eq_refl))) as Hx.
  destruct (decide (P x)), (decide (Q x)); tauto || done.
Qed.

Lemma prefix_is_sublist {A} (l1 l2 : list A) :
  l1 `prefix_of` l2 → sublist l1 l2.
Proof. intros [k ->]. by apply sublist_inserts_r. Qed.

Lemma announced_sublist_filter seen (l : list WrappedPointer) :
  sublist (announced seen l) (filter (λ p, Oid p ∉ seen) l).
Proof.
  revert seen. induction l as [|p l IH]; intros seen; simpl; [constructor|].
  rewrite filter_cons. destruct (decide (Oid p ∈ seen)) as [Hin|Hout].
  - rewrite decide_False by (intros Hn; by apply Hn). apply IH.
  - rewrite decide_True by done. apply sublist_skip.
    etrans; [apply IH|]. clear IH.
    induction l as [|x l IH]; [constructor|]. rewrite !filter_cons.
    destruct (decide (Oid x ∉ {[Oid p]} ∪ seen)) as [Hx|Hx].
    + rewrite decide_True by set_solver. by apply sublist_skip.
    + destruct (decide (Oid x ∉ seen)); [by apply sublist_cons|done].
Qed.

Lemma announced_NoDup_input seen (l : list WrappedPointer) :
  NoDup (Oid <$> l) → announced seen l = filter (λ p, Oid p ∉ seen) l.
Proof.
  revert seen. induction l as [|p l IH]; intros seen; [done|].
  rewrite fmap_cons. intros [Hp Hl]%NoDup_cons. simpl. rewrite filter_cons.
  destruct (decide (Oid p ∈ seen)) as [Hin|Hout].
  - rewrite decide_False by (intros Hn; by apply Hn). by apply IH.
  - rewrite decide_True by done. f_equal. rewrite IH by done.
    symmetry. apply filter_ext_elem. intros x Hx.
    assert (Oid x ≠ Oid p) as Hne.
    { intros Heq. apply Hp. rewrite <- Heq. apply list_elem_of_fmap. eauto. }
    set_solver.
Qed.

(** ** Reading the events of [upload] *)

Section MoreReaders.
Context `{Env}.

Lemma check_calls_check_adds (ps : list WrappedPointer) :
  check_calls (EvCheckAdd <$> ps) = EvCheckAdd <$> ps.
Proof. induction ps as [|x ps IH]; [done|]. cbn. f_equal. exact IH. Qed.

Lemma check_calls_check_events missing size :
  check_calls (check_events missing size) = check_events missing size.
Proof.
  destruct missing as [|p l]; [done|]. unfold check_events.
  change (check_calls (?e :: ?evs)) with (e :: check_calls evs).
  f_equal. unfold check_calls. rewrite omap_app.
  fold (check_calls (EvCheckAdd <$> p :: l)).
  by rewrite check_calls_check_adds.
Qed.

Lemma adds_enqueued ps : adds (concat (enqueued <$> ps)) = omap unit_of ps.
Proof.
  induction ps as [|p ps IH]; [done|]. rewrite fmap_cons. cbn [concat].
  unfold adds in *. rewrite omap_app, IH. cbn [omap list_omap].
  unfold enqueued, unit_of at 2.
  by destruct (materialized (Oid p) (Name p)).
Qed.

Lemma materialize_calls_enqueued ps :
  materialize_calls (concat (enqueued <$> ps)) = (λ p, (Oid p, Name p)) <$> ps.
Proof.
  induction ps as [|p ps IH]; [done|]. rewrite !fmap_cons. cbn [concat].
  unfold materialize_calls in *. rewrite omap_app, IH.
  unfold enqueued. by destruct (materialized (Oid p) (Name p)).
Qed.

Lemma length_units ps :
  Forall materializes ps → length (omap unit_of ps) = length ps.
Proof.
  induction 1 as [|p ps [u Hu] _ IH]; [done|]. cbn.
  unfold unit_of at 1. rewrite Hu. simpl. by rewrite IH.
Qed.

(** The readers on the events of [prepareUpload]. *)
Lemma prepareUpload_readers l c :
  let F := counted c l in
  let M := absent F in
  local_queries (events (prepareUpload l c)) = (λ p, (Oid p, Size p)) <$> F
  ∧ check_calls (events (prepareUpload l c))
    = check_events M (Int64.wrap (sum_sizes M))
  ∧ materialize_calls (events (prepareUpload l c)) = []
  ∧ adds (events (prepareUpload l c)) = []
  ∧ Forall (λ e, (1 ≤ stage e ≤ 4)%nat) (events (prepareUpload l c)).
Proof.
  intros F M. rewrite prepareUpload_events. fold F M.
  unfold local_queries, check_calls, materialize_calls, adds.
  rewrite !omap_app. split_and!.
  - rewrite (omap_stage_nil _ 2 (check_events _ _))
      by (apply stage_check_events || by intros []).
    rewrite (omap_stage_nil _ 4 (EvSkip <$> _))
      by (apply stage_skips || by intros []).
    cbn. rewrite (right_id_L [] (++)).
    generalize F. intros ps. induction ps as [|x ps IH]; [done|].
    cbn. f_equal. exact IH.
  - rewrite (omap_stage_nil _ 1 (_ <$> F))
      by (apply stage_queries || by intros []).
    rewrite (omap_stage_nil _ 4 (EvSkip <$> _))
      by (apply stage_skips || by intros []).
    cbn. rewrite (right_id_L [] (++)). apply check_calls_check_events.
  - rewrite (omap_stage_nil _ 1 (_ <$> F))
      by (apply stage_queries || by intros []).
    rewrite (omap_stage_nil _ 2 (check_events _ _))
      by (apply stage_check_events || by intros []).
    rewrite (omap_stage_nil _ 4 (EvSkip <$> _))
      by (apply stage_skips || by intros []).
    done.
  - rewrite (omap_stage_nil _ 1 (_ <$> F))
      by (apply stage_queries || by intros []).
    rewrite (omap_stage_nil _ 2 (check_events _ _))
      by (apply stage_check_events || by intros []).
    rewrite (omap_stage_nil _ 4 (EvSkip <$> _))
      by (apply stage_skips || by intros []).
    done.
  - rewrite !Forall_app. split_and!.
    + eapply Forall_impl; [apply stage_queries|]. simpl. intros e ->. lia.
    + eapply Forall_impl; [apply stage_check_events|]. simpl. intros e ->. lia.
    + repeat constructor; simpl; lia.
    + eapply Forall_impl; [apply stage_skips|]. simpl. intros e ->. lia.
Qed.

(** The two ways a real-mode [upload] can go. *)
Lemma upload_real_cases l c q0 ups :
  DryRun c = false →
  result (prepareUpload l c) = Returned (q0, ups) →
  (Forall materializes ups
   ∧ upload l c =
       Run (match transfer_errors (loaded q0 ups) with
            | [] => Returned tt
            | _ :: _ => Halted (ExitStatus 2)
            end)
           {| DryRun := false;
              uploadedOids := list_to_set (Oid <$> ups)
                              ∪ uploadedOids (context (prepareUpload l c)) |}
           (events (prepareUpload l c)
            ++ concat (enqueued <$> ups)
            ++ [EvQueueWait]
            ++ concat (reported <$> transfer_errors (loaded q0 ups))
            ++ match transfer_errors (loaded q0 ups) with
               | [] => []
               | _ :: _ => [EvOsExit 2]
               end))
  ∨ (∃ pre p post err,
       ups = pre ++ p :: post ∧ Forall materializes pre
       ∧ materialized (Oid p) (Name p) = inr err
       ∧ upload l c =
           Run (Halted Aborted)
               {| DryRun := DryRun (context (prepareUpload l c));
                  uploadedOids := list_to_set (Oid <$> pre)
                                  ∪ uploadedOids (context (prepareUpload l c)) |}
               (events (prepareUpload l c)
                ++ concat (enqueued <$> pre)
                ++ [EvNewUploadable (Oid p) (Name p); abort_event p err])).
Proof.
  intros Hreal Hprep.
  destruct (materializes_or_fails ups)
    as [Hall|(pre & p & post & err & -> & Hpre & Herr)].
  - left. split; [done|]. by apply upload_real_drains.
  - right. exists pre, p, post, err. split_and!; try done.
    by eapply upload_real_aborts.
Qed.

Lemma stage_abort_event p err : stage (abort_event p err) = 8%nat.
Proof. unfold abort_event. by destruct (err_clean_pointer err). Qed.

End MoreReaders.

(** ** What [prepareUpload] hands to [upload] *)

Section Prepared.
Context `{Env}.

Lemma prepared l c :
  result (prepareUpload l c) = Returned (transfer_queue c l, working_list c l).
Proof.
  unfold transfer_queue, working_list.
  destruct (prepareUpload_result l c) as (q0 & ups & ->). reflexivity.
Qed.

Lemma working_list_eq l c :
  let F := counted c l in
  let M := absent F in
  working_list c l
  = present F ++ filter (λ p, Oid p ∉ uploadedOids (reconciled c M)) M.
Proof.
  intros F M. unfold working_list.
  pose proof (prepareUpload_run l c) as Hrun. cbv zeta in Hrun.
  by rewrite Hrun.
Qed.

Lemma transfer_queue_eq l c :
  let F := counted c l in
  let M := absent F in
  transfer_queue c l
  = {| q_numObjects := Z.of_nat (length F);
       q_totalSize := Int64.wrap (sum_sizes F);
       q_dryRun := DryRun c;
       q_skipped :=
         Size <$> filter (λ p, Oid p ∈ uploadedOids (reconciled c M)) M;
       q_added := [] |}.
Proof.
  intros F M. unfold transfer_queue.
  pose proof (prepareUpload_run l c) as Hrun. cbv zeta in Hrun.
  by rewrite Hrun.
Qed.

Lemma prepareUpload_context l c :
  context (prepareUpload l c) = reconciled c (absent (counted c l)).
Proof.
  pose proof (prepareUpload_run l c) as Hrun. cbv zeta in Hrun.
  by rewrite Hrun.
Qed.

Lemma present_absent_Permutation (F : list WrappedPointer) :
  present F ++ absent F ≡ₚ F.
Proof. apply filter_app_complement. Qed.

Lemma working_list_sublist l c :
  sublist (working_list c l) (present (counted c l) ++ absent (counted c l)).
Proof.
  rewrite working_list_eq. apply sublist_app; [done|]. apply sublist_filter.
Qed.

Lemma elem_of_working_list l c p :
  p ∈ working_list c l → p ∈ l ∧ Oid p ∉ uploadedOids c.
Proof.
  intros Hp. eapply elem_of_sublist in Hp; [|apply working_list_sublist].
  rewrite present_absent_Permutation in Hp.
  by apply list_elem_of_filter in Hp as [? ?].
Qed.

Lemma working_list_NoDup l c :
  NoDup (Oid <$> l) → NoDup (Oid <$> working_list c l).
Proof.
  intros Hl. eapply sublist_NoDup;
    [|apply fmap_sublist, working_list_sublist].
  rewrite present_absent_Permutation.
  eapply sublist_NoDup; [exact Hl|]. apply fmap_sublist, sublist_filter.
Qed.

(** Every counted candidate is skipped or handed on. *)
Lemma working_list_length l c :
  (length (working_list c l) + length (q_skipped (transfer_queue c l))
   = length (counted c l))%nat.
Proof.
  rewrite working_list_eq, transfer_queue_eq. cbn [q_skipped].
  rewrite length_app, length_fmap.
  set (F := counted c l). set (M := absent F).
  set (c' := reconciled c M).
  rewrite <- (Permutation_length (present_absent_Permutation F)).
  rewrite length_app. fold M.
  rewrite (length_filter_split (λ p, Oid p ∈ uploadedOids c') M). lia.
Qed.

Lemma working_list_sum l c :
  sum_sizes (working_list c l)
  + foldr Z.add 0 (q_skipped (transfer_queue c l))
  = sum_sizes (counted c l).
Proof.
  rewrite working_list_eq, transfer_queue_eq. cbn [q_skipped].
  rewrite sum_sizes_app, sum_sizes_fmap.
  set (F := counted c l). set (M := absent F).
  set (c' := reconciled c M).
  rewrite (sum_sizes_split F). fold M.
  rewrite (sum_sizes_filter_split (λ p, Oid p ∈ uploadedOids c') M). lia.
Qed.

(** After the loop of lines 133-145 every candidate is handled. *)
Lemma all_handled l c p :
  p ∈ l →
  Oid p ∈ (list_to_set (Oid <$> working_list c l)
           ∪ uploadedOids (context (prepareUpload l c)) : gset string).
Proof.
  intros Hp. rewrite prepareUpload_context, working_list_eq.
  set (F := counted c l). set (M := absent F). set (c' := reconciled c M).
  destruct (decide (Oid p ∈ uploadedOids c)) as [Hin|Hout].
  { apply elem_of_union_r. unfold c', reconciled. cbn. set_solver. }
  assert (p ∈ F) as HF by (by apply list_elem_of_filter).
  destruct (decide (in_local_cache (Oid p) (Size p) = true)) as [Hc|Hc].
  - apply elem_of_union_l, elem_of_list_to_set, list_elem_of_fmap.
    exists p. split; [done|]. apply elem_of_app. left.
    by apply list_elem_of_filter.
  - assert (p ∈ M) as HM by (by apply list_elem_of_filter).
    destruct (decide (Oid p ∈ uploadedOids c')) as [Hc'|Hc'].
    + by apply elem_of_union_r.
    + apply elem_of_union_l, elem_of_list_to_set, list_elem_of_fmap.
      exists p. split; [done|]. apply elem_of_app. right.
      by apply list_elem_of_filter.
Qed.

(** When every candidate is handled already, nothing is counted. *)
Lemma counted_nil l c :
  (∀ p, p ∈ l → Oid p ∈ uploadedOids c) → counted c l = [].
Proof.
  intros Hall. unfold counted.
  induction l as [|p l IH]; [done|]. rewrite filter_cons.
  rewrite decide_False.
  - apply IH. intros x Hx. apply Hall. by apply elem_of_cons; right.
  - intros Hn. apply Hn, Hall. by apply elem_of_cons; left.
Qed.

Lemma counted_Permutation l l' c : l ≡ₚ l' → counted c l ≡ₚ counted c l'.
Proof. intros Hl. unfold counted. by rewrite Hl. Qed.

Lemma sum_sizes_Permutation l l' : l ≡ₚ l' → sum_sizes l = sum_sizes l'.
Proof.
  induction 1 as [|p l l' _ IH|p1 p2 l|l1 l2 l3 _ IH1 _ IH2]; simpl; lia.
Qed.

End Prepared.

(** ** The events after [prepareUpload] *)

Section Tail.
Context `{Env}.

(** In real mode the events of [upload] are those of [prepareUpload]
    followed by events of the later stages, in order. *)
Lemma upload_real_split l c :
  DryRun c = false →
  ∃ rest, events (upload l c) = events (prepareUpload l c) ++ rest
          ∧ from_stage 5 rest.
Proof.
  intros Hreal.
  destruct (upload_real_cases l c _ _ Hreal (prepared l c))
    as [[Hall ->]|(pre & p & post & err & Hups & Hpre & Herr & ->)];
    cbn [events]; eexists; (split; [reflexivity|]).
  - apply (from_stage_app 5 6); [apply stage_enqueued| |lia].
    apply (from_stage_cons 6 7); [done| |lia].
    apply (from_stage_app 7 8); [apply stage_reported| |lia].
    destruct (transfer_errors _); [apply from_stage_nil|].
    apply (from_stage_cons 8 8); [done|apply from_stage_nil|lia].
  - apply (from_stage_app 5 5); [apply stage_enqueued| |lia].
    apply (from_stage_cons 5 8); [done| |lia].
    apply (from_stage_cons 8 8);
      [apply stage_abort_event|apply from_stage_nil|lia].
Qed.

Lemma omap_from_stage_nil {B} (f : event → option B) n evs :
  from_stage n evs → (∀ e, (n ≤ stage e)%nat → f e = None) → omap f evs = [].
Proof.
  intros [Hevs _] Hf. induction Hevs as [|e evs He _ IH]; [done|].
  cbn. by rewrite (Hf e He).
Qed.

Lemma stage_dry_run (l : list WrappedPointer) :
  Forall (λ e, stage e = 0%nat) ((λ p, EvPrint (push_line p)) <$> l).
Proof. apply Forall_fmap, Forall_true. done. Qed.

Lemma upload_dry_events l c :
  DryRun c = true →
  events (upload l c)
  = (λ p, EvPrint (push_line p)) <$> announced (uploadedOids c) l.
Proof. intros Hdry. by rewrite upload_dry, dry_run_from. Qed.

Lemma in_order_lookup evs i j e1 e2 :
  in_order evs → (i < j)%nat → evs !! i = Some e1 → evs !! j = Some e2 →
  (stage e1 ≤ stage e2)%nat.
Proof.
  unfold in_order. revert i j. induction evs as [|e evs IH]; intros i j Hs Hij.
  { by rewrite lookup_nil. }
  rewrite fmap_cons in Hs. apply StronglySorted_inv in Hs as [Hs Hall].
  destruct j as [|j]; [lia|]. destruct i as [|i]; simpl.
  - intros [= ->] Hj. rewrite Forall_fmap in Hall.
    eapply Forall_lookup_1 in Hall; [|exact Hj]. exact Hall.
  - apply IH; [done|lia].
Qed.

End Tail.

(** ** The set of handled oids *)

(** X1. [SetUploaded] followed by [HasUploaded] of the same oid answers
    true; the answer for any other oid is what it was; marking an oid
    twice is marking it once, and the order of two marks does not matter;
    neither operation touches the [DryRun] flag or calls a collaborator,
    and [HasUploaded] leaves the context alone; on the context made by
    [newUploadContext], which carries the flag it was given, [HasUploaded]
    answers false for every oid. *)
Theorem X1_SetUploaded_then_HasUploaded `{Env}
    (oid other : string) (c : uploadContext) :
  let c1 := context (SetUploaded oid c) in
  result (HasUploaded oid c1) = Returned true
  ∧ (other ≠ oid → result (HasUploaded other c1) = result (HasUploaded other c))
  ∧ context (SetUploaded oid c1) = c1
  ∧ context (SetUploaded other c1)
    = context (SetUploaded oid (context (SetUploaded other c)))
  ∧ DryRun c1 = DryRun c
  ∧ events (SetUploaded oid c) = []
  ∧ events (HasUploaded oid c) = []
  ∧ context (HasUploaded oid c) = c
  ∧ (∀ dryRun, DryRun (newUploadContext dryRun) = dryRun
               ∧ result (HasUploaded oid (newUploadContext dryRun))
                 = Returned false).
Proof.
  cbv zeta. rewrite !SetUploaded_run, !HasUploaded_run.
  cbn [result context events DryRun uploadedOids]. split_and!; try done.
  - f_equal. apply bool_decide_eq_true_2. set_solver.
  - intros Hne. f_equal. apply bool_decide_ext. set_solver.
  - f_equal. set_solver.
  - f_equal. set_solver.
Qed.

(** ** The first loop of [prepareUpload] *)

(** X2. The loop of lines 48-68 returns and leaves the context as it
    was. It splits the candidates that are not yet handled into
    [uploadables] and [missingLocalObjects]: the two lists together are a
    permutation of those candidates, each keeps the order of the input,
    the first holds the pointers the local cache has and the second those
    it does not have, and no pointer is in both. [numObjects] is the sum
    of their lengths, and [totalSize] and [missingSize] are the [int64]
    values of the sums of their sizes. *)
Theorem X2_classification_partitions `{Env}
    (l : list WrappedPointer) (c : uploadContext) :
  ∃ st,
    result (classify l c) = Returned st
    ∧ context (classify l c) = c
    ∧ uploadables st ++ missingLocalObjects st ≡ₚ counted c l
    ∧ sublist (uploadables st) l
    ∧ sublist (missingLocalObjects st) l
    ∧ (∀ p, p ∈ uploadables st ↔
            p ∈ l ∧ (Oid p ∉ uploadedOids c)
            ∧ in_local_cache (Oid p) (Size p) = true)
    ∧ (∀ p, p ∈ missingLocalObjects st ↔
            p ∈ l ∧ (Oid p ∉ uploadedOids c)
            ∧ in_local_cache (Oid p) (Size p) = false)
    ∧ (∀ p, ¬ (p ∈ uploadables st ∧ p ∈ missingLocalObjects st))
    ∧ numObjects st
      = Z.of_nat (length (uploadables st) + length (missingLocalObjects st))
    ∧ totalSize st
      = Int64.wrap (sum_sizes (uploadables st)
                    + sum_sizes (missingLocalObjects st))
    ∧ missingSize st = Int64.wrap (sum_sizes (missingLocalObjects st)).
Proof.
  rewrite classify_run. eexists. split; [reflexivity|].
  cbn [context uploadables missingLocalObjects numObjects totalSize missingSize].
  set (F := counted c l).
  assert (∀ p, p ∈ F ↔ p ∈ l ∧ Oid p ∉ uploadedOids c) as HF.
  { intros p. unfold F, counted. rewrite list_elem_of_filter. tauto. }
  split_and!.
  - done.
  - apply present_absent_Permutation.
  - etrans; [apply sublist_filter|]. apply sublist_filter.
  - etrans; [apply sublist_filter|]. apply sublist_filter.
  - intros p. unfold present. rewrite list_elem_of_filter, HF. tauto.
  - intros p. unfold absent. rewrite list_elem_of_filter, HF.
    destruct (in_local_cache (Oid p) (Size p)); naive_solver.
  - intros p [[Hp _]%list_elem_of_filter [Ha _]%list_elem_of_filter]. done.
  - rewrite <- length_app.
    by rewrite (Permutation_length (present_absent_Permutation F)).
  - by rewrite <- sum_sizes_split.
  - done.
Qed.

(** X3. In real mode [upload] asks the local cache once for every
    candidate that is not handled when the call starts, with the oid and
    the size of that candidate, in the order of the input and as often as
    the candidate occurs; it asks for nothing else, whether the run ends
    by returning or by leaving the process. In dry-run it does not ask
    at all. *)
Theorem X3_local_cache_is_asked_once_per_candidate `{Env}
    (l : list WrappedPointer) (c : uploadContext) :
  local_queries (events (upload l c))
  = if DryRun c then []
    else (λ p, (Oid p, Size p)) <$> filter (λ p, Oid p ∉ uploadedOids c) l.
Proof.
  destruct (DryRun c) eqn:Hmode.
  - rewrite upload_dry_events by done.
    apply (omap_stage_nil _ 0%nat); [apply stage_dry_run|]. by intros [].
  - destruct (upload_real_split l c Hmode) as (rest & -> & Hrest).
    unfold local_queries. rewrite omap_app.
    rewrite (omap_from_stage_nil _ 5 rest Hrest), (right_id_L [] (++)).
    + apply (prepareUpload_readers l c).
    + intros []; simpl; (done || lia).
Qed.

(** ** The check against the remote *)

(** X4. In real mode the download-check queue is used for the candidates
    that are not handled and not in the local cache, and for them only:
    when there is none, no check queue is made and [checkMissing] does
    nothing at all; otherwise one strict queue is made for their number
    and the [int64] sum of their sizes, every one of them is added, in
    order, and the queue is watched and waited for once. Nothing else is
    done with a check queue, whatever the outcome of [upload]; in dry-run
    none is made. *)
Theorem X4_remote_check_protocol `{Env}
    (l : list WrappedPointer) (c : uploadContext) :
  let M := absent (counted c l) in
  (∀ size, checkMissing [] size c = Run (Returned tt) c [])
  ∧ check_calls (events (upload l c))
    = if DryRun c then []
      else match M with
           | [] => []
           | _ :: _ =>
               EvNewDownloadCheckQueue (Z.of_nat (length M))
                                       (Int64.wrap (sum_sizes M)) true
               :: (EvCheckAdd <$> M) ++ [EvCheckWatch; EvCheckWait]
           end.
Proof.
  intros M. split; [reflexivity|].
  destruct (DryRun c) eqn:Hmode.
  - rewrite upload_dry_events by done.
    apply (omap_stage_nil _ 0%nat); [apply stage_dry_run|]. by intros [].
  - destruct (upload_real_split l c Hmode) as (rest & -> & Hrest).
    unfold check_calls at 1. rewrite omap_app.
    rewrite (omap_from_stage_nil _ 5 rest Hrest), (right_id_L [] (++)).
    + apply (prepareUpload_readers l c).
    + intros []; simpl; (done || lia).
Qed.

(** ** The transfer queue *)

(** X5. [prepareUpload] always returns a queue and a list of pointers.
    The queue has nothing added yet and carries the [DryRun] flag of the
    context. Every candidate it counted is either skipped or handed on:
    [numObjects] is the number of pointers returned plus the number of
    sizes skipped, and [totalSize] is the [int64] value of the sum of
    the sizes returned and the sizes skipped. Every pointer returned is a
    candidate of the input whose oid was not handled when the call
    started. *)
Theorem X5_counted_is_skipped_or_returned `{Env}
    (l : list WrappedPointer) (c : uploadContext) :
  ∃ q ups,
    result (prepareUpload l c) = Returned (q, ups)
    ∧ q_added q = []
    ∧ q_dryRun q = DryRun c
    ∧ q_numObjects q = Z.of_nat (length ups + length (q_skipped q))
    ∧ q_totalSize q = Int64.wrap (sum_sizes ups + foldr Z.add 0 (q_skipped q))
    ∧ (∀ p, p ∈ ups → p ∈ l ∧ Oid p ∉ uploadedOids c)
    ∧ DryRun (context (prepareUpload l c)) = DryRun c.
Proof.
  exists (transfer_queue c l), (working_list c l). split_and!.
  - apply prepared.
  - by rewrite transfer_queue_eq.
  - by rewrite transfer_queue_eq.
  - rewrite working_list_length. by rewrite transfer_queue_eq.
  - rewrite working_list_sum. by rewrite transfer_queue_eq.
  - intros p. apply elem_of_working_list.
  - by rewrite prepareUpload_context.
Qed.

(** ** The calls of a real-mode [upload], outcome by outcome *)

Section RealReaders.
Context `{Env}.

Lemma adds_app evs1 evs2 : adds (evs1 ++ evs2) = adds evs1 ++ adds evs2.
Proof. apply omap_app. Qed.

Lemma materialize_calls_app evs1 evs2 :
  materialize_calls (evs1 ++ evs2)
  = materialize_calls evs1 ++ materialize_calls evs2.
Proof. apply omap_app. Qed.

Lemma prepareUpload_skips l c :
  skips (events (prepareUpload l c)) = q_skipped (transfer_queue c l).
Proof.
  rewrite prepareUpload_events, transfer_queue_eq. cbn [q_skipped].
  rewrite !skips_app, skips_queries, skips_check_events, skips_skips.
  reflexivity.
Qed.

Lemma prepareUpload_queues_made l c :
  queues_made (events (prepareUpload l c))
  = [(Z.of_nat (length (counted c l)), Int64.wrap (sum_sizes (counted c l)),
      DryRun c)].
Proof.
  rewrite prepareUpload_events.
  rewrite !queues_made_app, queues_made_queries, queues_made_check_events,
    queues_made_skips.
  reflexivity.
Qed.

Lemma upload_real_skips l c :
  DryRun c = false →
  skips (events (upload l c)) = q_skipped (transfer_queue c l).
Proof.
  intros Hmode. destruct (upload_real_split l c Hmode) as (rest & -> & Hrest).
  rewrite skips_app, prepareUpload_skips.
  unfold skips at 1. rewrite (omap_from_stage_nil _ 5 rest Hrest).
  - apply (right_id_L [] (++)).
  - intros []; simpl; (done || lia).
Qed.

Lemma upload_real_queues_made l c :
  DryRun c = false →
  queues_made (events (upload l c))
  = [(Z.of_nat (length (counted c l)), Int64.wrap (sum_sizes (counted c l)),
      false)].
Proof.
  intros Hmode. destruct (upload_real_split l c Hmode) as (rest & -> & Hrest).
  rewrite queues_made_app, prepareUpload_queues_made, Hmode.
  unfold queues_made at 1. rewrite (omap_from_stage_nil _ 5 rest Hrest).
  - reflexivity.
  - intros []; simpl; (done || lia).
Qed.

Lemma after_enqueuing_from_stage (errs : list lfs_error) :
  from_stage 6
    ([EvQueueWait] ++ concat (reported <$> errs)
     ++ match errs with [] => [] | _ :: _ => [EvOsExit 2] end).
Proof.
  apply (from_stage_cons 6 7); [done| |lia].
  apply (from_stage_app 7 8); [apply stage_reported| |lia].
  destruct errs; [apply from_stage_nil|].
  apply (from_stage_cons 8 8); [done|apply from_stage_nil|lia].
Qed.

Lemma adds_prepareUpload l c : adds (events (prepareUpload l c)) = [].
Proof. apply (prepareUpload_readers l c). Qed.

Lemma materialize_calls_prepareUpload l c :
  materialize_calls (events (prepareUpload l c)) = [].
Proof. apply (prepareUpload_readers l c). Qed.

Lemma adds_after_enqueuing (errs : list lfs_error) :
  adds ([EvQueueWait] ++ concat (reported <$> errs)
        ++ match errs with [] => [] | _ :: _ => [EvOsExit 2] end) = [].
Proof.
  apply (omap_from_stage_nil _ 6 _ (after_enqueuing_from_stage _)).
  intros []; simpl; (done || lia).
Qed.

Lemma materialize_calls_after_enqueuing (errs : list lfs_error) :
  materialize_calls
    ([EvQueueWait] ++ concat (reported <$> errs)
     ++ match errs with [] => [] | _ :: _ => [EvOsExit 2] end) = [].
Proof.
  apply (omap_from_stage_nil _ 6 _ (after_enqueuing_from_stage _)).
  intros []; simpl; (done || lia).
Qed.

(** The run of a real-mode [upload] in which every unit is made. *)
Lemma upload_completes l c :
  DryRun c = false → Forall materializes (working_list c l) →
  result (upload l c)
  = match upload_errors c l with
    | [] => Returned tt
    | _ :: _ => Halted (ExitStatus 2)
    end
  ∧ uploadedOids (context (upload l c))
    = list_to_set (Oid <$> working_list c l)
      ∪ uploadedOids (context (prepareUpload l c))
  ∧ adds (events (upload l c)) = omap unit_of (working_list c l)
  ∧ materialize_calls (events (upload l c))
    = (λ p, (Oid p, Name p)) <$> working_list c l.
Proof.
  intros Hmode Hall.
  rewrite (upload_real_drains l c _ _ Hmode (prepared l c) Hall).
  cbv zeta. cbn [result context events uploadedOids]. split_and!; try done.
  - rewrite (adds_app (events _)), (adds_app (concat _)), adds_enqueued,
      adds_prepareUpload.
    fold (upload_errors c l). rewrite adds_after_enqueuing.
    by rewrite (right_id_L [] (++)).
  - rewrite (materialize_calls_app (events _)),
      (materialize_calls_app (concat _)), materialize_calls_enqueued,
      materialize_calls_prepareUpload.
    fold (upload_errors c l). rewrite materialize_calls_after_enqueuing.
    by rewrite (right_id_L [] (++)).
Qed.

(** The run of a real-mode [upload] in which a unit cannot be made. *)
Lemma upload_gives_up l c pre p post err :
  DryRun c = false →
  working_list c l = pre ++ p :: post →
  Forall materializes pre →
  materialized (Oid p) (Name p) = inr err →
  result (upload l c) = Halted Aborted
  ∧ adds (events (upload l c)) = omap unit_of pre
  ∧ length (adds (events (upload l c))) = length pre
  ∧ materialize_calls (events (upload l c))
    = (λ p, (Oid p, Name p)) <$> (pre ++ [p]).
Proof.
  intros Hmode Hwl Hpre Herr.
  pose proof (prepared l c) as Hprep. rewrite Hwl in Hprep.
  rewrite (upload_real_aborts l c _ _ _ _ _ Hmode Hprep Hpre Herr).
  cbn [result events].
  assert (adds (events (prepareUpload l c) ++ concat (enqueued <$> pre)
                ++ [EvNewUploadable (Oid p) (Name p); abort_event p err])
          = omap unit_of pre) as Hadds.
  { rewrite (adds_app (events _)), (adds_app (concat _)), adds_enqueued,
      adds_prepareUpload.
    unfold adds at 1, abort_event. destruct (err_clean_pointer err); cbn;
      by rewrite (right_id_L [] (++)). }
  split_and!; [done|done| |].
  - rewrite Hadds. by apply length_units.
  - rewrite (materialize_calls_app (events _)),
      (materialize_calls_app (concat _)), materialize_calls_enqueued,
      materialize_calls_prepareUpload.
    rewrite fmap_app. cbn [app]. f_equal.
    unfold materialize_calls, abort_event.
    by destruct (err_clean_pointer err).
Qed.

(** A real-mode [upload] goes one of the two ways. *)
Lemma upload_completes_or_gives_up l c :
  Forall materializes (working_list c l)
  ∨ ∃ pre p post err,
      working_list c l = pre ++ p :: post ∧ Forall materializes pre
      ∧ materialized (Oid p) (Name p) = inr err.
Proof. apply materializes_or_fails. Qed.

Lemma not_aborted_materializes l c :
  DryRun c = false → result (upload l c) ≠ Halted Aborted →
  Forall materializes (working_list c l).
Proof.
  intros Hmode Hres.
  destruct (upload_completes_or_gives_up l c)
    as [Hall|(pre & p & post & err & Hwl & Hpre & Herr)]; [done|].
  destruct Hres. by eapply upload_gives_up.
Qed.

End RealReaders.

Section Completed.
Context `{Env}.

(** Once a real-mode [upload] has run its enqueuing loop to the end,
    the set holds the oids of the input, the oids the remote confirmed
    and what it held before. *)
Lemma completed_set l c :
  DryRun c = false → Forall materializes (working_list c l) →
  uploadedOids (context (upload l c))
  = list_to_set (Oid <$> l)
    ∪ list_to_set (confirmed (absent (counted c l))) ∪ uploadedOids c.
Proof.
  intros Hmode Hall.
  destruct (upload_completes l c Hmode Hall) as (_ & -> & _).
  apply set_eq. intros oid. split.
  - rewrite prepareUpload_context. unfold reconciled. cbn [uploadedOids].
    rewrite !elem_of_union, !elem_of_list_to_set.
    intros [(p & -> & Hp)%list_elem_of_fmap|[?|?]]; [|tauto..].
    left. left. apply list_elem_of_fmap. exists p. split; [done|].
    by apply elem_of_working_list in Hp as [? _].
  - rewrite (elem_of_union _ (uploadedOids c)), (elem_of_union (list_to_set _)).
    intros [[(p & -> & Hp)%elem_of_list_to_set%list_elem_of_fmap|Hconf]|Hold].
    + by apply all_handled.
    + apply elem_of_union_r. rewrite prepareUpload_context.
      unfold reconciled. cbn [uploadedOids]. by apply elem_of_union_l.
    + apply elem_of_union_r. rewrite prepareUpload_context.
      unfold reconciled. cbn [uploadedOids]. by apply elem_of_union_r.
Qed.

(** A real-mode [upload] of candidates that are all handled. *)
Lemma upload_nothing_new l c :
  DryRun c = false → (∀ p, p ∈ l → Oid p ∈ uploadedOids c) →
  let errs :=
    transfer_errors {| q_numObjects := 0; q_totalSize := 0;
                       q_dryRun := false; q_skipped := []; q_added := [] |} in
  upload l c
  = Run (match errs with [] => Returned tt | _ :: _ => Halted (ExitStatus 2) end)
        c
        ([EvNewUploadQueue 0 0 false; EvQueueWait]
         ++ concat (reported <$> errs)
         ++ match errs with [] => [] | _ :: _ => [EvOsExit 2] end).
Proof.
  intros Hmode Hall errs.
  pose proof (counted_nil l c Hall) as Hnil.
  assert (working_list c l = []) as Hwl.
  { rewrite working_list_eq, Hnil. reflexivity. }
  assert (transfer_queue c l
          = {| q_numObjects := 0; q_totalSize := 0; q_dryRun := false;
               q_skipped := []; q_added := [] |}) as Hq.
  { rewrite transfer_queue_eq, Hnil, Hmode. reflexivity. }
  pose proof (prepared l c) as Hprep. rewrite Hwl, Hq in Hprep.
  rewrite (upload_real_drains l c _ _ Hmode Hprep (Forall_nil_2 _)).
  cbv zeta. cbn [omap list_omap app q_numObjects q_totalSize q_dryRun
                 q_skipped q_added fmap list_fmap concat].
  fold errs. rewrite prepareUpload_events, prepareUpload_context, Hnil, Hmode.
  cbn [absent filter list_filter fmap list_fmap app length sum_sizes foldr
       check_events reconciled confirmed list_to_set uploadedOids concat].
  f_equal. destruct c as [d oids]. cbn in *. subst d. f_equal.
  set_solver.
Qed.

End Completed.

(** ** What the transfer queue is given *)

(** X6. In real mode [upload] makes one transfer queue, for the number
    and the [int64] total size of the candidates that are not handled
    when the call starts. The queue is never given more than was
    announced to it: the calls to [Add] and to [Skip] together are at
    most that number, and they are exactly that number unless the
    process is ended because a unit could not be made. *)
Theorem X6_queue_is_given_what_was_announced `{Env}
    (l : list WrappedPointer) (c : uploadContext) :
  DryRun c = false →
  let evs := events (upload l c) in
  let given := Z.of_nat (length (adds evs) + length (skips evs)) in
  queues_made evs
  = [(Z.of_nat (length (counted c l)), Int64.wrap (sum_sizes (counted c l)),
      false)]
  ∧ given ≤ Z.of_nat (length (counted c l))
  ∧ (given = Z.of_nat (length (counted c l))
     ↔ result (upload l c) ≠ Halted Aborted).
Proof.
  intros Hmode evs given. split; [by apply upload_real_queues_made|].
  unfold given, evs. rewrite upload_real_skips by done.
  rewrite <- (working_list_length l c).
  destruct (upload_completes_or_gives_up l c)
    as [Hall|(pre & p & post & err & Hwl & Hpre & Herr)].
  - destruct (upload_completes l c Hmode Hall) as (Hres & _ & -> & _).
    rewrite length_units by done. split; [lia|]. split; [|done].
    intros _. rewrite Hres. by destruct (upload_errors c l).
  - destruct (upload_gives_up l c _ _ _ _ Hmode Hwl Hpre Herr)
      as (Hres & _ & -> & _).
    rewrite Hwl, length_app. cbn [length]. split; [lia|]. split; [lia|done].
Qed.

(** X6, witness: [A] is in the local cache and is added; [B] is not, the
    remote confirms it, and it is skipped. *)
Lemma X6_queue_is_given_what_was_announced_witness :
  let l := [Scenario.blob_a; Scenario.blob_b] in
  let c := newUploadContext false in
  let evs := events (upload (H:=Scenario.smooth) l c) in
  let given := Z.of_nat (length (adds evs) + length (skips evs)) in
  queues_made evs
  = [(Z.of_nat (length (counted c l)), Int64.wrap (sum_sizes (counted c l)),
      false)]
  ∧ given ≤ Z.of_nat (length (counted c l))
  ∧ (given = Z.of_nat (length (counted c l))
     ↔ result (upload (H:=Scenario.smooth) l c) ≠ Halted Aborted).
Proof.
  apply (X6_queue_is_given_what_was_announced (H:=Scenario.smooth)
           [Scenario.blob_a; Scenario.blob_b] (newUploadContext false)).
  reflexivity.
Defined.

(** X7. In real mode [lfs.NewUploadable] is called for pointers of the
    working list only, in the order of that list and up to the first
    one that fails: each call is for the oid and the name of a candidate
    of the input that was not handled when [upload] started. When no
    two candidates of the input share an oid, no oid is passed to
    [lfs.NewUploadable] twice. *)
Theorem X7_distinct_oids_are_materialized_once `{Env}
    (l : list WrappedPointer) (c : uploadContext) :
  DryRun c = false →
  let calls := materialize_calls (events (upload l c)) in
  calls `prefix_of` (λ p, (Oid p, Name p)) <$> working_list c l
  ∧ (∀ oid name, (oid, name) ∈ calls →
       ∃ p, p ∈ l ∧ Oid p = oid ∧ Name p = name ∧ oid ∉ uploadedOids c)
  ∧ (result (upload l c) ≠ Halted Aborted →
       calls = (λ p, (Oid p, Name p)) <$> working_list c l)
  ∧ (NoDup (Oid <$> l) → NoDup (fst <$> calls)).
Proof.
  intros Hmode calls.
  assert (calls `prefix_of` (λ p, (Oid p, Name p)) <$> working_list c l)
    as Hprefix.
  { unfold calls.
    destruct (upload_completes_or_gives_up l c)
      as [Hall|(pre & p & post & err & Hwl & Hpre & Herr)].
    - by destruct (upload_completes l c Hmode Hall) as (_ & _ & _ & ->).
    - destruct (upload_gives_up l c _ _ _ _ Hmode Hwl Hpre Herr)
        as (_ & _ & _ & ->).
      rewrite Hwl. exists ((λ p, (Oid p, Name p)) <$> post).
      by rewrite <- fmap_app, <- (assoc_L (++)). }
  split_and!.
  - exact Hprefix.
  - intros oid name Hin.
    eapply elem_of_sublist in Hin; [|by apply prefix_is_sublist].
    apply list_elem_of_fmap in Hin as (p & [= -> ->] & Hp).
    apply elem_of_working_list in Hp as [? ?]. by exists p.
  - intros Hres. unfold calls.
    pose proof (not_aborted_materializes l c Hmode Hres) as Hall.
    by destruct (upload_completes l c Hmode Hall) as (_ & _ & _ & ->).
  - intros Hnodup. eapply sublist_NoDup;
      [|apply fmap_sublist, prefix_is_sublist, Hprefix].
    rewrite <- list_fmap_compose.
    by apply working_list_NoDup.
Qed.

(** X7, witness: [A] and [B], neither confirmed by the remote, and the
    unit for [B] cannot be made. *)
Lemma X7_distinct_oids_are_materialized_once_witness :
  let l := [Scenario.blob_a; Scenario.blob_b] in
  let c := newUploadContext false in
  let calls := materialize_calls (events (upload (H:=Scenario.mismatch) l c)) in
  calls `prefix_of`
    (λ p, (Oid p, Name p)) <$> working_list (H:=Scenario.mismatch) c l
  ∧ (∀ oid name, (oid, name) ∈ calls →
       ∃ p, p ∈ l ∧ Oid p = oid ∧ Name p = name ∧ oid ∉ uploadedOids c)
  ∧ (result (upload (H:=Scenario.mismatch) l c) ≠ Halted Aborted →
       calls = (λ p, (Oid p, Name p)) <$> working_list (H:=Scenario.mismatch) c l)
  ∧ (NoDup (Oid <$> l) → NoDup (fst <$> calls)).
Proof.
  apply (X7_distinct_oids_are_materialized_once (H:=Scenario.mismatch)
           [Scenario.blob_a; Scenario.blob_b] (newUploadContext false)).
  reflexivity.
Defined.

(** ** Dry-run against real mode *)

(** X8. Dry-run and real mode, started with the same set of handled
    oids: dry-run never prints more lines than the number of objects
    that real mode announces to the transfer queue, and when no two
    candidates of the input share an oid it prints exactly one line for
    each of the candidates that real mode counts, in the same order. *)
Theorem X8_dry_run_previews_the_count `{Env}
    (l : list WrappedPointer) (cd cr : uploadContext) :
  DryRun cd = true → DryRun cr = false → uploadedOids cd = uploadedOids cr →
  ∃ n size,
    queues_made (events (upload l cr)) = [(n, size, false)]
    ∧ Z.of_nat (length (events (upload l cd))) ≤ n
    ∧ (NoDup (Oid <$> l) →
         Z.of_nat (length (events (upload l cd))) = n
         ∧ events (upload l cd)
           = (λ p, EvPrint (push_line p)) <$> counted cr l).
Proof.
  intros Hd Hr Hsame. eexists _, _.
  split; [by apply upload_real_queues_made|].
  rewrite upload_dry_events by done. rewrite length_fmap, Hsame. split.
  - apply inj_le, sublist_length, announced_sublist_filter.
  - intros Hnodup. rewrite announced_NoDup_input by done. done.
Qed.

(** X8, witness: [A] and [B] on fresh contexts. *)
Lemma X8_dry_run_previews_the_count_witness :
  let l := [Scenario.blob_a; Scenario.blob_b] in
  let cd := newUploadContext true in
  let cr := newUploadContext false in
  ∃ n size,
    queues_made (events (upload (H:=Scenario.smooth) l cr)) = [(n, size, false)]
    ∧ Z.of_nat (length (events (upload (H:=Scenario.smooth) l cd))) ≤ n
    ∧ (NoDup (Oid <$> l) →
         Z.of_nat (length (events (upload (H:=Scenario.smooth) l cd))) = n
         ∧ events (upload (H:=Scenario.smooth) l cd)
           = (λ p, EvPrint (push_line p)) <$> counted cr l).
Proof.
  apply (X8_dry_run_previews_the_count (H:=Scenario.smooth)
           [Scenario.blob_a; Scenario.blob_b]
           (newUploadContext true) (newUploadContext false));
    reflexivity.
Defined.

(** ** After a real-mode upload *)

(** X9. When a real-mode [upload] does not end the process for a unit
    that could not be made, every candidate of the input is handled
    afterwards, whether it was uploaded, skipped or handled before; the
    set is then the oids of the input, the oids the remote confirmed and
    the oids it held before, and the context is still in real mode. *)
Theorem X9_completed_upload_handles_every_candidate `{Env}
    (l : list WrappedPointer) (c : uploadContext) :
  DryRun c = false →
  result (upload l c) ≠ Halted Aborted →
  (∀ p, p ∈ l →
        result (HasUploaded (Oid p) (context (upload l c))) = Returned true)
  ∧ uploadedOids (context (upload l c))
    = list_to_set (Oid <$> l)
      ∪ list_to_set (confirmed (absent (counted c l))) ∪ uploadedOids c
  ∧ DryRun (context (upload l c)) = false.
Proof.
  intros Hmode Hres.
  pose proof (not_aborted_materializes l c Hmode Hres) as Hall.
  pose proof (completed_set l c Hmode Hall) as Hset. split_and!.
  - intros p Hp. rewrite HasUploaded_run. cbn [result]. f_equal.
    apply bool_decide_eq_true_2. rewrite Hset.
    apply elem_of_union_l, elem_of_union_l, elem_of_list_to_set,
      list_elem_of_fmap. eauto.
  - exact Hset.
  - destruct (grows_upload l c) as [-> _]. exact Hmode.
Qed.

(** X9, witness: [A] is uploaded and [B] is skipped. *)
Lemma X9_completed_upload_handles_every_candidate_witness :
  let l := [Scenario.blob_a; Scenario.blob_b] in
  let c := newUploadContext false in
  (∀ p, p ∈ l →
        result (HasUploaded (H:=Scenario.smooth) (Oid p)
                  (context (upload (H:=Scenario.smooth) l c)))
        = Returned true)
  ∧ uploadedOids (context (upload (H:=Scenario.smooth) l c))
    = list_to_set (Oid <$> l)
      ∪ list_to_set (confirmed (H:=Scenario.smooth)
                       (absent (H:=Scenario.smooth) (counted c l)))
      ∪ uploadedOids c
  ∧ DryRun (context (upload (H:=Scenario.smooth) l c)) = false.
Proof.
  apply (X9_completed_upload_handles_every_candidate (H:=Scenario.smooth)
           [Scenario.blob_a; Scenario.blob_b] (newUploadContext false)).
  - reflexivity.
  - vm_compute. discriminate.
Defined.



(** X11. After a real-mode [upload] that did not end the process for a
    unit that could not be made, a second real-mode [upload] of the same
    candidates, or of any of them, transfers nothing: it asks neither
    the local cache nor the remote, makes no unit, adds and skips
    nothing, announces 0 objects and 0 bytes to its queue and leaves the
    context as the first call left it. *)
Theorem X11_second_upload_transfers_nothing `{Env}
    (L L' : list WrappedPointer) (c : uploadContext) :
  DryRun c = false →
  result (upload L c) ≠ Halted Aborted →
  sublist L' L →
  let c1 := context (upload L c) in
  let evs := events (upload L' c1) in
  local_queries evs = []
  ∧ check_calls evs = []
  ∧ materialize_calls evs = []
  ∧ adds evs = []
  ∧ skips evs = []
  ∧ queues_made evs = [(0, 0, false)]
  ∧ context (upload L' c1) = c1.
Proof.
  intros Hmode Hres Hsub c1 evs.
  pose proof (not_aborted_materializes L c Hmode Hres) as Hmat.
  assert (DryRun c1 = false) as Hmode1.
  { unfold c1. destruct (grows_upload L c) as [-> _]. exact Hmode. }
  assert (∀ p, p ∈ L' → Oid p ∈ uploadedOids c1) as Hall.
  { intros p Hp. unfold c1. rewrite completed_set by done.
    apply elem_of_union_l, elem_of_union_l, elem_of_list_to_set,
      list_elem_of_fmap. exists p. split; [done|]. by eapply elem_of_sublist. }
  unfold evs. rewrite (upload_nothing_new L' c1 Hmode1 Hall).
  cbv zeta. cbn [context events].
  change ([EvNewUploadQueue 0 0 false; EvQueueWait] ++ ?rest)
    with ([EvNewUploadQueue 0 0 false] ++ [EvQueueWait] ++ rest).
  unfold local_queries, check_calls, materialize_calls, adds, skips,
    queues_made.
  rewrite !(omap_app _ [EvNewUploadQueue 0 0 false]).
  rewrite !(omap_from_stage_nil _ 6 _ (after_enqueuing_from_stage _))
    by (intros []; simpl; (done || lia)).
  done.
Qed.

(** X11, witness: [A] and [B] are pushed, then [B] is pushed again. *)
Lemma X11_second_upload_transfers_nothing_witness :
  let L := [Scenario.blob_a; Scenario.blob_b] in
  let L' := [Scenario.blob_b] in
  let c1 := context (upload (H:=Scenario.smooth) L (newUploadContext false)) in
  let evs := events (upload (H:=Scenario.smooth) L' c1) in
  local_queries evs = []
  ∧ check_calls evs = []
  ∧ materialize_calls evs = []
  ∧ adds evs = []
  ∧ skips evs = []
  ∧ queues_made evs = [(0, 0, false)]
  ∧ context (upload (H:=Scenario.smooth) L' c1) = c1.
Proof.
  apply (X11_second_upload_transfers_nothing (H:=Scenario.smooth)
           [Scenario.blob_a; Scenario.blob_b] [Scenario.blob_b]
           (newUploadContext false)).
  - reflexivity.
  - vm_compute. discriminate.
  - apply sublist_cons, sublist_skip, sublist_nil.
Defined.

(** X12. [upload] marks no oid that it has no reason to mark: whatever
    its outcome, the set afterwards holds only oids of candidates of the
    input, oids that the remote confirmed (in real mode) and the oids
    it held before. No function of the file changes the [DryRun] flag of
    the context, so a context stays in the mode it was made in through
    any sequence of operations. *)
Theorem X12_only_input_and_confirmed_oids_are_marked `{Env}
    (l : list WrappedPointer) (c : uploadContext) :
  uploadedOids (context (upload l c))
  ⊆ list_to_set (Oid <$> l)
    ∪ (if DryRun c then ∅
       else list_to_set (confirmed (absent (counted c l))))
    ∪ uploadedOids c
  ∧ DryRun (context (upload l c)) = DryRun c
  ∧ (∀ ops, DryRun (session c ops) = DryRun c).
Proof.
  split_and!.
  - destruct (DryRun c) eqn:Hmode.
    + rewrite upload_dry, dry_run_from by done. cbn [context uploadedOids].
      set_solver.
    + destruct (upload_completes_or_gives_up l c)
        as [Hall|(pre & p & post & err & Hwl & Hpre & Herr)].
      * by rewrite completed_set.
      * pose proof (prepared l c) as Hprep. rewrite Hwl in Hprep.
        rewrite (upload_real_aborts l c _ _ _ _ _ Hmode Hprep Hpre Herr).
        cbn [context uploadedOids]. rewrite prepareUpload_context.
        unfold reconciled. cbn [uploadedOids].
        assert (∀ oid, oid ∈ Oid <$> pre → oid ∈ Oid <$> l) as Hsub.
        { intros oid (x & -> & Hx)%list_elem_of_fmap.
          apply list_elem_of_fmap. exists x. split; [done|].
          apply (elem_of_working_list l c). rewrite Hwl.
          apply elem_of_app. by left. }
        intros oid. rewrite !elem_of_union, !elem_of_list_to_set.
        intros [?|[?|?]]; auto.
  - apply grows_upload.
  - intros ops. unfold session. revert c.
    induction ops as [|o ops IH]; intros c; [done|]. cbn [foldl].
    rewrite IH. destruct o as [oid|oid|l'|l' size|l'|l']; cbn [perform].
    + apply grows_SetUploaded.
    + apply grows_HasUploaded.
    + apply grows_classify.
    + apply grows_checkMissing.
    + apply grows_prepareUpload.
    + apply grows_upload.
Qed.

(** ** How [upload] ends *)

(** X13. [upload] ends in one of three ways, and which one is decided as
    follows. In dry-run it returns. In real mode it ends the process
    through [Exit] or [ExitWithError] exactly when the unit of some
    pointer of the working list cannot be made; it ends it through
    [os.Exit] with status 2 exactly when all units are made and the queue
    has an error afterwards; it returns exactly when all units are made
    and the queue has no error. It calls [os.Exit] with no other
    status. *)
Theorem X13_outcomes_of_upload `{Env}
    (l : list WrappedPointer) (c : uploadContext) :
  (DryRun c = true → result (upload l c) = Returned tt)
  ∧ (DryRun c = false →
       (result (upload l c) = Halted Aborted
        ↔ ¬ Forall materializes (working_list c l))
       ∧ (result (upload l c) = Halted (ExitStatus 2)
          ↔ Forall materializes (working_list c l) ∧ upload_errors c l ≠ [])
       ∧ (result (upload l c) = Returned tt
          ↔ Forall materializes (working_list c l) ∧ upload_errors c l = []))
  ∧ (result (upload l c) = Returned tt
     ∨ result (upload l c) = Halted Aborted
     ∨ result (upload l c) = Halted (ExitStatus 2)).
Proof.
  assert (DryRun c = true → result (upload l c) = Returned tt) as Hdry.
  { intros Hmode. by rewrite upload_dry, dry_run_from. }
  assert (DryRun c = false →
          (Forall materializes (working_list c l)
           ∧ result (upload l c)
             = match upload_errors c l with
               | [] => Returned tt
               | _ :: _ => Halted (ExitStatus 2)
               end)
          ∨ (¬ Forall materializes (working_list c l)
             ∧ result (upload l c) = Halted Aborted)) as Hreal.
  { intros Hmode.
    destruct (upload_completes_or_gives_up l c)
      as [Hall|(pre & p & post & err & Hwl & Hpre & Herr)].
    - left. split; [done|]. by apply upload_completes.
    - right. split.
      + rewrite Hwl. by eapply materializes_not_both.
      + by eapply upload_gives_up. }
  split_and!.
  - exact Hdry.
  - intros Hmode.
    destruct (Hreal Hmode) as [[Hall Hres]|[Hnot Hres]]; rewrite Hres.
    + destruct (upload_errors c l); split_and!; split; naive_solver.
    + split_and!; split; naive_solver.
  - destruct (DryRun c) eqn:Hmode; [left; by apply Hdry|].
    destruct (Hreal eq_refl) as [[Hall Hres]|[Hnot Hres]]; rewrite Hres.
    + destruct (upload_errors c l); auto.
    + auto.
Qed.

(** ** The order of the calls *)

(** X14. The events of [upload] come in the order of its stages,
    whatever its input, its mode and its outcome: lines printed in
    dry-run (0), questions to the local cache (1), calls on the
    download-check queue (2), the making of the transfer queue (3),
    skips (4), the making and adding of units (5), the wait for the
    transfer queue (6), the reports of errors (7), the end of the process
    (8). No event is followed by an event of an earlier stage: the local
    cache is not asked once the remote has been, nothing is skipped
    after the first unit is made, nothing is added after the wait, no
    error is reported before it, and nothing happens after the process
    has been ended. *)
Theorem X14_events_come_in_stage_order `{Env}
    (l : list WrappedPointer) (c : uploadContext) :
  in_order (events (upload l c))
  ∧ (∀ i j e1 e2,
       (i < j)%nat →
       events (upload l c) !! i = Some e1 →
       events (upload l c) !! j = Some e2 →
       (stage e1 ≤ stage e2)%nat).
Proof.
  assert (in_order (events (upload l c))) as Hord.
  { destruct (DryRun c) eqn:Hmode.
    - rewrite upload_dry_events by done.
      rewrite <- (right_id_L [] (++) (_ <$> _)).
      apply (from_stage_app 0 0); [apply stage_dry_run|apply from_stage_nil|lia].
    - destruct (upload_real_split l c Hmode) as (rest & -> & Hrest).
      by apply prepareUpload_from_stage. }
  split; [exact Hord|]. intros i j e1 e2. by apply in_order_lookup.
Qed.

(** ** The two tasks of [checkMissing] *)

(** X15. With a check queue that sends the confirmed oids on the
    channel and then closes it: from every state that the caller of
    [checkMissing], its goroutine and the queue can reach,
    [checkMissing] can still return, with every oid of the stream
    marked; as long as the caller is not back, somebody can take a step,
    so the tasks never block each other for good; and every step uses up
    some of the work that is left, so there is no run without end. *)
Theorem X15_checkMissing_gets_back
    (oids0 : gset string) (stream : list string) (s : Barrier.state) :
  Barrier.reachable oids0 stream s →
  rtc Barrier.step s (Barrier.finished oids0 stream)
  ∧ (Barrier.main s ≠ Barrier.HasReturned → ∃ s', Barrier.step s s')
  ∧ (∀ s', Barrier.step s s' → (Barrier.weight s' < Barrier.weight s)%nat).
Proof.
  intros Hreach. split_and!.
  - by apply returns_from.
  - apply (progress oids0 stream). by apply invariant_reachable.
  - intros s'. apply step_uses_weight.
Qed.

(** X15, witness: the state in which the goroutine has just been
    started and the queue is going to confirm [B]. *)
Lemma X15_checkMissing_gets_back_witness :
  let s := Barrier.start ∅ ["B"] in
  rtc Barrier.step s (Barrier.finished ∅ ["B"])
  ∧ (Barrier.main s ≠ Barrier.HasReturned → ∃ s', Barrier.step s s')
  ∧ (∀ s', Barrier.step s s' → (Barrier.weight s' < Barrier.weight s)%nat).
Proof.
  apply (X15_checkMissing_gets_back ∅ ["B"] (Barrier.start ∅ ["B"])).
  apply rtc_refl.
Defined.



(** X17. [checkQueue.Wait()] alone does not order the caller after the
    goroutine. With a check queue whose [Wait] returns once every oid
    has been sent: when the remote confirms an oid that is not yet in
    the set, there is a run in which the caller has passed line 113 and
    stands at the receive of line 114 while the goroutine has not yet
    marked the oid. The comment at line 112 says so; the receive from
    [done] is what keeps the caller from reading the set too early. *)
Theorem X17_wait_alone_does_not_synchronize
    (oids0 : gset string) (oid : string) (rest : list string) :
  oid ∉ oids0 →
  ∃ s, Barrier.reachable oids0 (oid :: rest) s
       ∧ Barrier.main s = Barrier.AtReceiveDone
       ∧ Barrier.collector s = Barrier.AtRange
       ∧ (oid ∉ Barrier.oids s)
       ∧ Barrier.finished oids0 (oid :: rest) ≠ s
       ∧ oid ∈ Barrier.oids (Barrier.finished oids0 (oid :: rest)).
Proof.
  intros Hnew.
  assert (∀ sent todo,
    rtc Barrier.step
      {| Barrier.main := Barrier.InWait; Barrier.collector := Barrier.AtRange;
         Barrier.pending := todo; Barrier.transferc := sent;
         Barrier.closed := false; Barrier.oids := oids0 |}
      {| Barrier.main := Barrier.InWait; Barrier.collector := Barrier.AtRange;
         Barrier.pending := []; Barrier.transferc := sent ++ todo;
         Barrier.closed := false; Barrier.oids := oids0 |})
    as Hsend.
  { intros sent todo. revert sent.
    induction todo as [|x todo IH]; intros sent.
    - rewrite (right_id_L [] (++)). apply rtc_refl.
    - eapply rtc_l; [left; by eapply (Barrier.queue_sends _ x todo)|]. simpl.
      replace (sent ++ x :: todo) with ((sent ++ [x]) ++ todo)
        by (by rewrite <- (assoc_L (++))).
      apply IH. }
  eexists. split_and!.
  - unfold Barrier.reachable, Barrier.start.
    eapply rtc_trans; [apply Hsend|].
    eapply rtc_l; [right; by eapply Barrier.wait_returns|]. simpl.
    apply rtc_refl.
  - done.
  - done.
  - done.
  - done.
  - cbn. set_solver.
Qed.

(** X17, witness: the remote confirms [B] and nothing is handled yet. *)
Lemma X17_wait_alone_does_not_synchronize_witness :
  ∃ s, Barrier.reachable ∅ ["B"] s
       ∧ Barrier.main s = Barrier.AtReceiveDone
       ∧ Barrier.collector s = Barrier.AtRange
       ∧ ("B" ∉ Barrier.oids s)
       ∧ Barrier.finished ∅ ["B"] ≠ s
       ∧ "B" ∈ Barrier.oids (Barrier.finished ∅ ["B"]).
Proof.
  apply (X17_wait_alone_does_not_synchronize ∅ "B" []).
  apply not_elem_of_empty.
Defined.

(** ** Order and batches *)

(** X18. The counters of [prepareUpload] do not depend on the order of
    the candidates: for two inputs that are permutations of each other,
    the first loop counts the same number of objects, the same
    [totalSize] and the same [missingSize], sorts the same pointers into
    [uploadables] and into [missingLocalObjects], and the transfer queue
    is made with the same arguments. *)
Theorem X18_counters_do_not_depend_on_order `{Env}
    (l l' : list WrappedPointer) (c : uploadContext) :
  l ≡ₚ l' →
  ∃ st st',
    result (classify l c) = Returned st
    ∧ result (classify l' c) = Returned st'
    ∧ numObjects st = numObjects st'
    ∧ totalSize st = totalSize st'
    ∧ missingSize st = missingSize st'
    ∧ uploadables st ≡ₚ uploadables st'
    ∧ missingLocalObjects st ≡ₚ missingLocalObjects st'
    ∧ queues_made (events (prepareUpload l c))
      = queues_made (events (prepareUpload l' c)).
Proof.
  intros Hperm. pose proof (counted_Permutation l l' c Hperm) as HF.
  assert (present (counted c l) ≡ₚ present (counted c l')) as HP
    by (unfold present; by rewrite HF).
  assert (absent (counted c l) ≡ₚ absent (counted c l')) as HA
    by (unfold absent; by rewrite HF).
  rewrite !classify_run. eexists _, _.
  split; [reflexivity|]. split; [reflexivity|].
  cbn [uploadables missingLocalObjects numObjects totalSize missingSize].
  rewrite !prepareUpload_queues_made.
  rewrite (Permutation_length HF), (sum_sizes_Permutation _ _ HF),
    (sum_sizes_Permutation _ _ HA).
  done.
Qed.

(** X18, witness: [A] before [B], and [B] before [A]. *)
Lemma X18_counters_do_not_depend_on_order_witness :
  let l := [Scenario.blob_a; Scenario.blob_b] in
  let l' := [Scenario.blob_b; Scenario.blob_a] in
  let c := newUploadContext false in
  ∃ st st',
    result (classify (H:=Scenario.smooth) l c) = Returned st
    ∧ result (classify (H:=Scenario.smooth) l' c) = Returned st'
    ∧ numObjects st = numObjects st'
    ∧ totalSize st = totalSize st'
    ∧ missingSize st = missingSize st'
    ∧ uploadables st ≡ₚ uploadables st'
    ∧ missingLocalObjects st ≡ₚ missingLocalObjects st'
    ∧ queues_made (events (prepareUpload (H:=Scenario.smooth) l c))
      = queues_made (events (prepareUpload (H:=Scenario.smooth) l' c)).
Proof.
  apply (X18_counters_do_not_depend_on_order (H:=Scenario.smooth)
           [Scenario.blob_a; Scenario.blob_b]
           [Scenario.blob_b; Scenario.blob_a] (newUploadContext false)).
  apply perm_swap.
Defined.

(** X19. A dry-run [upload] of a list in one call prints what two calls
    print, one for a first part of the list and one for the rest on the
    context that the first call leaves, and it leaves the same context:
    in dry-run a batch can be split anywhere. *)
Theorem X19_dry_run_of_a_concatenation `{Env}
    (l1 l2 : list WrappedPointer) (c : uploadContext) :
  DryRun c = true →
  let c1 := context (upload l1 c) in
  events (upload (l1 ++ l2) c) = events (upload l1 c) ++ events (upload l2 c1)
  ∧ context (upload (l1 ++ l2) c) = context (upload l2 c1)
  ∧ result (upload (l1 ++ l2) c) = Returned tt.
Proof.
  intros Hmode c1.
  assert (c1 = {| DryRun := DryRun c;
                  uploadedOids := list_to_set (Oid <$> l1) ∪ uploadedOids c |})
    as Hc1 by (unfold c1; by rewrite upload_dry, dry_run_from).
  assert (DryRun c1 = true) as Hmode1 by (by rewrite Hc1).
  rewrite !upload_dry by done. rewrite !dry_run_from.
  cbn [result context events]. rewrite Hc1. cbn [DryRun uploadedOids].
  split_and!.
  - by rewrite announced_app, fmap_app.
  - f_equal. rewrite fmap_app, list_to_set_app_L. set_solver.
  - done.
Qed.

(** X19, witness: [A] twice, then [B]. *)
Lemma X19_dry_run_of_a_concatenation_witness :
  let l1 := [Scenario.blob_a] in
  let l2 := [Scenario.blob_a_again; Scenario.blob_b] in
  let c := newUploadContext true in
  let c1 := context (upload (H:=Scenario.smooth) l1 c) in
  events (upload (H:=Scenario.smooth) (l1 ++ l2) c)
  = events (upload (H:=Scenario.smooth) l1 c)
    ++ events (upload (H:=Scenario.smooth) l2 c1)
  ∧ context (upload (H:=Scenario.smooth) (l1 ++ l2) c)
    = context (upload (H:=Scenario.smooth) l2 c1)
  ∧ result (upload (H:=Scenario.smooth) (l1 ++ l2) c) = Returned tt.
Proof.
  apply (X19_dry_run_of_a_concatenation (H:=Scenario.smooth)
           [Scenario.blob_a] [Scenario.blob_a_again; Scenario.blob_b]
           (newUploadContext true)).
  reflexivity.
Defined.
